(** * Sheet-to-sound backend: score / conversion lifecycle

    A shallow embedding of the Hono edge function (server/index.tsx): the
    upload, convert, status, library and delete handlers, the completion
    callback scheduled by the convert handler, and the key-value documents
    they read and write.

    Conventions of the embedding
    - the metadata store is a [gmap string value]; a store call may raise
      (the handlers wrap their body in try/catch), which is driven by a
      tape of faults carried in the world;
    - the blob store is external: every storage call consumes one outcome
      from a tape in the world;
    - instants ([Date.now()], [new Date().toISOString()]) are milliseconds
      since the epoch, as [N]; [new Date(s).getTime()] reads them back;
    - [setTimeout] appends the closure to the list of pending timers. *)

From stdpp Require Import gmap strings list fin_maps pretty sorting.
From Stdlib Require Import Ascii String ZArith Lia.

Local Open Scope string_scope.
Local Open Scope Z_scope.

(** ** Documents *)

Inductive Status := processing | completed | failed.

Record VoiceSettings := { enabled : bool; solo : bool; volume : Z }.

(** [SatbEmpty] is the empty object [{}] used as the default. *)
Inductive SATBConfig :=
| SatbEmpty
| Satb (soprano alto tenor bass : VoiceSettings).

Record Score := {
  s_id : string;
  s_userId : string;
  s_fileName : string;
  s_filePath : string;
  s_fileType : string;
  s_fileSize : N;
  s_uploadedAt : N;
  s_url : string;
}.

Record Conversion := {
  c_id : string;
  c_scoreId : string;
  c_userId : string;
  c_instruments : list string;
  c_satbConfig : SATBConfig;
  c_tempo : Z;
  c_status : Status;
  c_createdAt : N;
  c_audioUrl : option string;
  c_midiUrl : option string;
  c_audioPath : option string;
  c_midiPath : option string;
  c_completedAt : option N;
  c_error : option string;
}.

(** A stored JSON document: a score, a conversion, or a per-user index
    (an array of ids). *)
Inductive value :=
| VScore (s : Score)
| VConversion (c : Conversion)
| VIndex (ids : list string).

(** Property reads on a document of unknown shape; [None] is [undefined]. *)
Definition userId_of (v : value) : option string :=
  match v with
  | VScore s => Some (s_userId s)
  | VConversion c => Some (c_userId c)
  | VIndex _ => None
  end.

Definition id_of (v : value) : option string :=
  match v with
  | VScore s => Some (s_id s)
  | VConversion c => Some (c_id c)
  | VIndex _ => None
  end.

Definition scoreId_of (v : value) : option string :=
  match v with
  | VConversion c => Some (c_scoreId c)
  | _ => None
  end.

Definition filePath_of (v : value) : option string :=
  match v with
  | VScore s => Some (s_filePath s)
  | _ => None
  end.

Definition uploadedAt_of (v : value) : option N :=
  match v with
  | VScore s => Some (s_uploadedAt s)
  | _ => None
  end.

(** ** The world: stores, oracles, pending timers *)

Inductive blob_outcome :=
| BlobOk (payload : string)
| BlobErr (message : string)
| BlobThrow.

(** The variables captured by the closure passed to [setTimeout]. *)
Record timer := {
  tm_userId : string;
  tm_conversionId : string;
  tm_conversionData : Conversion;
}.

Record world := {
  kv : gmap string value;
  sessions : gmap string string;
  kv_faults : list bool;
  blob_tape : list blob_outcome;
  timers : list timer;
}.

Definition with_kv (m : gmap string value) (w : world) : world :=
  {| kv := m; sessions := sessions w; kv_faults := kv_faults w;
     blob_tape := blob_tape w; timers := timers w |}.

Definition with_kv_faults (t : list bool) (w : world) : world :=
  {| kv := kv w; sessions := sessions w; kv_faults := t;
     blob_tape := blob_tape w; timers := timers w |}.

Definition with_blob_tape (t : list blob_outcome) (w : world) : world :=
  {| kv := kv w; sessions := sessions w; kv_faults := kv_faults w;
     blob_tape := t; timers := timers w |}.

Definition with_timers (t : list timer) (w : world) : world :=
  {| kv := kv w; sessions := sessions w; kv_faults := kv_faults w;
     blob_tape := blob_tape w; timers := t |}.

(** ** A state monad with exceptions

    [None] as result is a thrown exception; the world reached so far is
    kept, as the writes already performed are not rolled back. *)

Definition M (A : Type) : Type := world → option A * world.

#[global] Instance M_ret : MRet M := λ A (a : A) w, (Some a, w).

Definition throw {A} : M A := λ w, (None, w).

#[global] Instance M_bind : MBind M := λ A B (f : A → M B) (m : M A) w,
  match m w with
  | (Some a, w') => f a w'
  | (None, w') => (None, w')
  end.

(** [try { body } catch { return fallback }] *)
Definition try_catch {A} (body : M A) (fallback : A) : world → A * world :=
  λ w, match body w with
       | (Some r, w') => (r, w')
       | (None, w') => (fallback, w')
       end.

(** ** Metadata store (kv_store.tsx)

    The module itself is not among the sources; the handlers import it as
    [kv] and the README lists its operations. *)

(** One call to the store: raises when the next fault flag is set. *)
Definition kv_call {A} (f : gmap string value → A * gmap string value)
    : M A :=
  λ w, match kv_faults w with
       | true :: t => (None, with_kv_faults t w)
       | _ => let '(a, m) := f (kv w) in
              (Some a, with_kv m (with_kv_faults (tail (kv_faults w)) w))
       end.

(** Modelled from the spec: [get] of kv_store.tsx, absent from the sources.
    The store is "a key-value mapping from opaque string keys to JSON
    documents"; a missing key reads as [undefined]. *)
Definition kv_get (k : string) : M (option value) :=
  kv_call (λ m, (m !! k, m)).

(** Modelled from the spec: [set] of kv_store.tsx, absent from the sources;
    it binds the key to the document, replacing any earlier one. *)
Definition kv_set (k : string) (v : value) : M unit :=
  kv_call (λ m, (tt, <[k := v]> m)).

(** Modelled from the spec: [del] of kv_store.tsx, absent from the sources;
    it removes the key. *)
Definition kv_del (k : string) : M unit :=
  kv_call (λ m, (tt, delete k m)).

(** Modelled from the spec: [mget] of kv_store.tsx, absent from the
    sources.  The listing "multi-fetches all referenced records, tolerating
    missing entries by silently omitting them", in "fetch order": the
    documents found, in the order of the requested keys. *)
Definition kv_mget (ks : list string) : M (list value) :=
  kv_call (λ m, (omap (λ k, m !! k) ks, m)).

(** [doc || []] read as an array of ids; [None] when the document is not
    an array. *)
Definition as_index (doc : option value) : option (list string) :=
  match doc with
  | None => Some []
  | Some (VIndex ids) => Some ids
  | Some _ => None
  end.

(** [await kv.get(key) || []] for an index key.  Spreading or filtering a
    document that is not an array raises. *)
Definition get_index (k : string) : M (list string) :=
  doc ← kv_get k;
  match as_index doc with
  | Some ids => mret ids
  | None => throw
  end.

(** The next [n] store calls do not raise. *)
Definition calm (n : nat) (w : world) : Prop :=
  Forall (λ b, b = false) (take n (kv_faults w)).

(** ** Blob store (supabase.storage)

    A call takes the next outcome from the tape: data, an error returned
    in [{ error }], or a raised exception.  An exhausted tape answers with
    empty data. *)

Definition blob_call : M (string + string) :=
  λ w, match blob_tape w with
       | BlobThrow :: t => (None, with_blob_tape t w)
       | BlobErr e :: t => (Some (inr e), with_blob_tape t w)
       | BlobOk d :: t => (Some (inl d), with_blob_tape t w)
       | [] => (Some (inl ""), w)
       end.

Definition SCORE_BUCKET := "make-f24025d1-scores".
Definition AUDIO_BUCKET := "make-f24025d1-audio".
Definition MIDI_BUCKET := "make-f24025d1-midi".

(** [upload] resolves to [{ data, error }]; the result is [error?.message]. *)
Definition storage_upload (bucket path : string) : M (option string) :=
  r ← blob_call;
  mret (match r with inl _ => None | inr e => Some e end).

(** [createSignedUrl] resolves to [{ data }]; the result is
    [data?.signedUrl]. *)
Definition storage_createSignedUrl (bucket path : string) : M (option string) :=
  r ← blob_call;
  mret (match r with inl u => Some u | inr _ => None end).

(** [remove]: the returned error, if any, is ignored by the callers. *)
Definition storage_remove (bucket path : string) : M unit :=
  blob_call;; mret tt.

(** ** Strings *)

Fixpoint split_go (sep : ascii) (cur s : string) : list string :=
  match s with
  | EmptyString => [cur]
  | String ch r =>
      if decide (ch = sep) then cur :: split_go sep "" r
      else split_go sep (cur +:+ String ch "") r
  end.

(** [s.split(sep)] for a one-character separator. *)
Definition split (sep : ascii) (s : string) : list string := split_go sep "" s.

(** [a || b] on strings: the empty string and [undefined] are falsy. *)
Definition str_or (a : option string) (b : string) : string :=
  match a with
  | Some (String ch r) => String ch r
  | _ => b
  end.

(** Truthiness of an optional string. *)
Definition truthy (a : option string) : bool :=
  match a with
  | Some (String _ _) => true
  | _ => false
  end.

(** Coercion of a property read to an object key. *)
Definition prop_key (a : option string) : string := default "undefined" a.

(** ** Keys *)

Definition scoreId_at (uid : string) (timestamp : N) : string :=
  "score_" +:+ uid +:+ "_" +:+ pretty timestamp.

Definition conversionId_at (uid : string) (timestamp : N) : string :=
  "conversion_" +:+ uid +:+ "_" +:+ pretty timestamp.

Definition userScoresKey (uid : string) : string := "user_scores_" +:+ uid.

Definition userConversionsKey (uid : string) : string :=
  "user_conversions_" +:+ uid.

(** ** Authentication *)

Record request := { authorization : option string }.

(** [verifyAuth]: [inl uid] is [{ user, error: null }], [inr msg] is
    [{ user: null, error: msg }].  The identity provider is the table of
    sessions, from access token to user id. *)
Definition verifyAuth (req : request) : M (string + string) :=
  λ w,
    let accessToken :=
      match authorization req with
      | Some h => split " " h !! 1%nat
      | None => None
      end in
    if negb (truthy accessToken) then
      (Some (inr "No authorization token provided"), w)
    else
      let user := accessToken ≫= (λ t, sessions w !! t) in
      if negb (truthy user) then (Some (inr "Invalid or expired token"), w)
      else (Some (inl (default "" user)), w).

(** ** Responses *)

Record LibraryEntry := { e_score : value; e_conversions : list value }.

Inductive response :=
| RError (code : nat) (error : string)
| RUpload (scoreId : string) (url : option string) (metadata : Score)
| RConvert (conversionId : string) (status : Status) (message : string)
| RJson (doc : value)
| RLibrary (library : list LibraryEntry)
| RMessage (message : string).

(** [authError || 'Unauthorized'] with status 401. *)
Definition unauthorized (authError : string) : response :=
  RError 401 (str_or (Some authError) "Unauthorized").

(** [!doc || doc.userId !== user.id] *)
Definition denied (uid : string) (doc : option value) : bool :=
  match doc with
  | None => true
  | Some v => bool_decide (userId_of v ≠ Some uid)
  end.

(** ** POST /scores/upload *)

Record File := { f_name : string; f_type : string; f_size : N }.

Definition allowedTypes : list string :=
  ["image/jpeg"; "image/png"; "image/jpg"; "application/pdf"].

Definition includes (l : list string) (x : string) : bool :=
  bool_decide (x ∈ l).

(** The [scoreMetadata] object literal. *)
Definition new_score (scoreId uid : string) (file : File) (fileName : string)
    (uploadedAt : N) (signedUrl : option string) : Score :=
  {| s_id := scoreId;
     s_userId := uid;
     s_fileName := f_name file;
     s_filePath := fileName;
     s_fileType := f_type file;
     s_fileSize := f_size file;
     s_uploadedAt := uploadedAt;
     s_url := str_or signedUrl "" |}.

(** [timestamp] is [Date.now()], [uploadedAt] the later [new Date()]. *)
Definition upload (req : request) (file : option File)
    (timestamp uploadedAt : N) : world → response * world :=
  try_catch
    (auth ← verifyAuth req;
     match auth with
     | inr authError => mret (unauthorized authError)
     | inl uid =>
       match file with
       | None => mret (RError 400 "No file provided")
       | Some file =>
         if negb (includes allowedTypes (f_type file)) then
           mret (RError 400
             "Invalid file type. Please upload JPG, PNG, or PDF files only.")
         else
           let fileExt := default "" (last (split "." (f_name file))) in
           let fileName :=
             uid +:+ "/" +:+ pretty timestamp +:+ "." +:+ fileExt in
           uploadError ← storage_upload SCORE_BUCKET fileName;
           match uploadError with
           | Some message =>
               mret (RError 500 ("Failed to upload file: " +:+ message))
           | None =>
             signedUrl ← storage_createSignedUrl SCORE_BUCKET fileName;
             let scoreId := scoreId_at uid timestamp in
             let scoreMetadata :=
               new_score scoreId uid file fileName uploadedAt signedUrl in
             kv_set scoreId (VScore scoreMetadata);;
             existingScores ← get_index (userScoresKey uid);
             kv_set (userScoresKey uid)
                    (VIndex (existingScores ++ [scoreId]));;
             mret (RUpload scoreId signedUrl scoreMetadata)
           end
       end
     end)
    (RError 500 "Internal server error during file upload").

(** ** POST /scores/:scoreId/convert *)

(** The parsed JSON body; an absent field is [None]. *)
Record ConvertBody := {
  b_instruments : option (list string);
  b_satbConfig : option SATBConfig;
  b_tempo : option Z;
}.

(** [tempo || 120]: [undefined] and [0] are falsy. *)
Definition tempo_or_default (tempo : option Z) : Z :=
  match tempo with
  | Some t => if t =? 0 then 120 else t
  | None => 120
  end.

Definition setTimeout (t : timer) : M unit :=
  λ w, (Some tt, with_timers (timers w ++ [t]) w).

(** The [conversionData] object literal; the fields set on completion are
    absent. *)
Definition new_conversion (conversionId scoreId uid : string)
    (body : ConvertBody) (createdAt : N) : Conversion :=
  {| c_id := conversionId;
     c_scoreId := scoreId;
     c_userId := uid;
     c_instruments := default [] (b_instruments body);
     c_satbConfig := default SatbEmpty (b_satbConfig body);
     c_tempo := tempo_or_default (b_tempo body);
     c_status := processing;
     c_createdAt := createdAt;
     c_audioUrl := None;
     c_midiUrl := None;
     c_audioPath := None;
     c_midiPath := None;
     c_completedAt := None;
     c_error := None |}.

(** [body = None] is a request whose body does not parse: [c.req.json()]
    raises.  [timestamp] is [Date.now()], [createdAt] the later
    [new Date()]. *)
Definition convert (req : request) (scoreId : string)
    (body : option ConvertBody) (timestamp createdAt : N)
    : world → response * world :=
  try_catch
    (auth ← verifyAuth req;
     match auth with
     | inr authError => mret (unauthorized authError)
     | inl uid =>
       match body with
       | None => throw
       | Some body =>
         scoreMetadata ← kv_get scoreId;
         if denied uid scoreMetadata then
           mret (RError 404 "Score not found or access denied")
         else
           let conversionId := conversionId_at uid timestamp in
           let conversionData :=
             new_conversion conversionId scoreId uid body createdAt in
           kv_set conversionId (VConversion conversionData);;
           setTimeout {| tm_userId := uid;
                         tm_conversionId := conversionId;
                         tm_conversionData := conversionData |};;
           mret (RConvert conversionId processing
             "Conversion started. Check status using the conversion ID.")
       end
     end)
    (RError 500 "Internal server error during conversion").

(** ** The completion callback *)

(** [{ ...conversionData, status: 'completed', audioUrl, midiUrl,
       audioPath, midiPath, completedAt }] *)
Definition updatedConversion (conversionData : Conversion)
    (audioUrl midiUrl : option string) (audioPath midiPath : string)
    (completedAt : N) : Conversion :=
  {| c_id := c_id conversionData;
     c_scoreId := c_scoreId conversionData;
     c_userId := c_userId conversionData;
     c_instruments := c_instruments conversionData;
     c_satbConfig := c_satbConfig conversionData;
     c_tempo := c_tempo conversionData;
     c_status := completed;
     c_createdAt := c_createdAt conversionData;
     c_audioUrl := audioUrl;
     c_midiUrl := midiUrl;
     c_audioPath := Some audioPath;
     c_midiPath := Some midiPath;
     c_completedAt := Some completedAt;
     c_error := c_error conversionData |}.

(** [{ ...conversionData, status: 'failed', error: '...' }] *)
Definition failedConversion (conversionData : Conversion) : Conversion :=
  {| c_id := c_id conversionData;
     c_scoreId := c_scoreId conversionData;
     c_userId := c_userId conversionData;
     c_instruments := c_instruments conversionData;
     c_satbConfig := c_satbConfig conversionData;
     c_tempo := c_tempo conversionData;
     c_status := failed;
     c_createdAt := c_createdAt conversionData;
     c_audioUrl := c_audioUrl conversionData;
     c_midiUrl := c_midiUrl conversionData;
     c_audioPath := c_audioPath conversionData;
     c_midiPath := c_midiPath conversionData;
     c_completedAt := c_completedAt conversionData;
     c_error := Some "Conversion processing failed" |}.

(** The [try] block of the callback. *)
Definition completion_try (t : timer) (completedAt : N) : M unit :=
  let audioPath := tm_userId t +:+ "/" +:+ tm_conversionId t +:+ ".mp3" in
  let midiPath := tm_userId t +:+ "/" +:+ tm_conversionId t +:+ ".mid" in
  audioUrl ← storage_createSignedUrl AUDIO_BUCKET audioPath;
  midiUrl ← storage_createSignedUrl MIDI_BUCKET midiPath;
  kv_set (tm_conversionId t)
         (VConversion (updatedConversion (tm_conversionData t)
                         audioUrl midiUrl audioPath midiPath completedAt));;
  existingConversions ← get_index (userConversionsKey (tm_userId t));
  kv_set (userConversionsKey (tm_userId t))
         (VIndex (existingConversions ++ [tm_conversionId t])).

(** The [catch] block of the callback. *)
Definition completion_catch (t : timer) : M unit :=
  kv_set (tm_conversionId t)
         (VConversion (failedConversion (tm_conversionData t))).

(** The callback; an exception raised inside [catch] is lost. *)
Definition completion (t : timer) (completedAt : N) (w : world) : world :=
  match completion_try t completedAt w with
  | (Some _, w') => w'
  | (None, w') => snd (completion_catch t w')
  end.

(** The event loop runs the oldest pending timer. *)
Definition fire_timer (completedAt : N) (w : world) : world :=
  match timers w with
  | [] => w
  | t :: ts => completion t completedAt (with_timers ts w)
  end.

(** ** GET /conversions/:conversionId *)

Definition getConversion (req : request) (conversionId : string)
    : world → response * world :=
  try_catch
    (auth ← verifyAuth req;
     match auth with
     | inr authError => mret (unauthorized authError)
     | inl uid =>
       conversionData ← kv_get conversionId;
       if denied uid conversionData then
         mret (RError 404 "Conversion not found or access denied")
       else
         match conversionData with
         | Some doc => mret (RJson doc)
         | None => throw
         end
     end)
    (RError 500 "Internal server error fetching conversion").

(** ** GET /library *)

(** [conversions.reduce((acc, conv) => { if (!acc[conv.scoreId])
    acc[conv.scoreId] = []; acc[conv.scoreId].push(conv); return acc }, {})] *)
Definition group_step (acc : gmap string (list value)) (conv : value)
    : gmap string (list value) :=
  let k := prop_key (scoreId_of conv) in
  <[k := (default [] (acc !! k) ++ [conv])%list]> acc.

Definition conversionsByScore (conversions : list value)
    : gmap string (list value) :=
  foldl group_step ∅ conversions.

(** [{ ...score, conversions: conversionsByScore[score.id] || [] }] *)
Definition with_conversions (byScore : gmap string (list value))
    (score : value) : LibraryEntry :=
  {| e_score := score;
     e_conversions := default [] (byScore !! prop_key (id_of score)) |}.

(** [new Date(x.uploadedAt).getTime()]; [None] is [NaN]. *)
Definition getTime (e : LibraryEntry) : option N := uploadedAt_of (e_score e).

(** The comparator [(a, b) => time(b) - time(a)].  A [NaN] result is
    treated as [+0] by the sort. *)
Definition newest_first (a b : LibraryEntry) : Z :=
  match getTime b, getTime a with
  | Some tb, Some ta => Z.of_N tb - Z.of_N ta
  | _, _ => 0
  end.

(** [Array.prototype.sort] is stable: an element moves in front of another
    only when the comparator says so.  For a consistent comparator the
    result is the one stable sort, computed here by insertion. *)
Fixpoint sort_insert {A} (cmp : A → A → Z) (x : A) (l : list A) : list A :=
  match l with
  | [] => [x]
  | y :: l' => if cmp x y <=? 0 then x :: l else y :: sort_insert cmp x l'
  end.

Definition js_sort {A} (cmp : A → A → Z) (l : list A) : list A :=
  foldr (sort_insert cmp) [] l.

Definition library (req : request) : world → response * world :=
  try_catch
    (auth ← verifyAuth req;
     match auth with
     | inr authError => mret (unauthorized authError)
     | inl uid =>
       scoreIds ← get_index (userScoresKey uid);
       conversionIds ← get_index (userConversionsKey uid);
       scores ← kv_mget scoreIds;
       conversions ← kv_mget conversionIds;
       let byScore := conversionsByScore conversions in
       let library := with_conversions byScore <$> scores in
       mret (RLibrary (js_sort newest_first library))
     end)
    (RError 500 "Internal server error fetching library").

(** ** DELETE /scores/:scoreId *)

Definition as_conversion (v : value) : option Conversion :=
  match v with
  | VConversion c => Some c
  | _ => None
  end.

(** [conversions.filter(c => c.scoreId === scoreId)]: only conversion
    documents have a [scoreId]. *)
Definition scoreConversions_of (scoreId : string) (conversions : list value)
    : list Conversion :=
  omap as_conversion
       (filter (λ v, scoreId_of v = Some scoreId) conversions).

(** [if (path) { await supabase.storage.from(bucket).remove([path]) }] *)
Definition remove_if_set (bucket : string) (path : option string) : M unit :=
  if truthy path then storage_remove bucket (prop_key path) else mret tt.

(** The [for ... of scoreConversions] loop. *)
Fixpoint delete_conversions (l : list Conversion) : M unit :=
  match l with
  | [] => mret tt
  | conversion :: rest =>
      remove_if_set AUDIO_BUCKET (c_audioPath conversion);;
      remove_if_set MIDI_BUCKET (c_midiPath conversion);;
      kv_del (c_id conversion);;
      delete_conversions rest
  end.

Definition deleteScore (req : request) (scoreId : string)
    : world → response * world :=
  try_catch
    (auth ← verifyAuth req;
     match auth with
     | inr authError => mret (unauthorized authError)
     | inl uid =>
       scoreMetadata ← kv_get scoreId;
       if denied uid scoreMetadata then
         mret (RError 404 "Score not found or access denied")
       else
         storage_remove SCORE_BUCKET
                        (prop_key (scoreMetadata ≫= filePath_of));;
         conversionIds ← get_index (userConversionsKey uid);
         conversions ← kv_mget conversionIds;
         let scoreConversions := scoreConversions_of scoreId conversions in
         delete_conversions scoreConversions;;
         let updatedConversions :=
           filter (λ id, id ∉ c_id <$> scoreConversions) conversionIds in
         kv_set (userConversionsKey uid) (VIndex updatedConversions);;
         kv_del scoreId;;
         scoreIds ← get_index (userScoresKey uid);
         kv_set (userScoresKey uid)
                (VIndex (filter (λ id, id ≠ scoreId) scoreIds));;
         mret (RMessage "Score and all conversions deleted successfully")
     end)
    (RError 500 "Internal server error during deletion").

(** ** Notions used in the statements *)

(** What a handler answers once [kv.get] has run on a denied document. *)
Definition after_lookup (internal not_found : string) (w : world)
    : response * world :=
  (if bool_decide (head (kv_faults w) = Some true) then RError 500 internal
   else RError 404 not_found,
   with_kv_faults (tail (kv_faults w)) w).

(** Decimal strings, as printed for an instant. *)
Definition is_digit (ch : ascii) : Prop :=
  ch ∈ ["0"; "1"; "2"; "3"; "4"; "5"; "6"; "7"; "8"; "9"]%char.

Fixpoint all_digits (s : string) : Prop :=
  match s with
  | EmptyString => True
  | String ch r => is_digit ch ∧ all_digits r
  end.

(** The blob store refuses the upload, or raises while uploading or
    while signing. *)
Definition blob_store_error (tape : list blob_outcome) : Prop :=
  match tape with
  | BlobErr _ :: _ | BlobThrow :: _ | BlobOk _ :: BlobThrow :: _ => True
  | _ => False
  end.

(** The blob store accepted the upload. *)
Definition blob_uploaded (tape : list blob_outcome) : Prop :=
  match tape with
  | BlobErr _ :: _ | BlobThrow :: _ => False
  | _ => True
  end.

(** The closure scheduled by a convert call. *)
Definition timer_of (uid scoreId : string) (body : ConvertBody)
    (timestamp createdAt : N) : timer :=
  {| tm_userId := uid;
     tm_conversionId := conversionId_at uid timestamp;
     tm_conversionData :=
       new_conversion (conversionId_at uid timestamp) scoreId uid body
                      createdAt |}.

Definition convert_started : string :=
  "Conversion started. Check status using the conversion ID.".

Definition audioPath_of (t : timer) : string :=
  tm_userId t +:+ "/" +:+ tm_conversionId t +:+ ".mp3".

Definition midiPath_of (t : timer) : string :=
  tm_userId t +:+ "/" +:+ tm_conversionId t +:+ ".mid".

(** Neither of the two signing calls of the callback raises. *)
Definition signing_answers (tape : list blob_outcome) : Prop :=
  match tape with
  | BlobThrow :: _ | _ :: BlobThrow :: _ => False
  | _ => True
  end.

(** [a] may stand in front of [b]: the comparator does not ask for a swap. *)
Definition not_older (a b : LibraryEntry) : Prop := newest_first a b ≤ 0.

(** Both entries are dated and [a] was uploaded no earlier than [b]. *)
Definition newer_or_same (a b : LibraryEntry) : Prop :=
  ∃ ta tb, getTime a = Some ta ∧ getTime b = Some tb ∧ (tb ≤ ta)%N.

Definition dated (e : LibraryEntry) : Prop := is_Some (getTime e).

(** The documents found under the given keys, missing ones omitted. *)
Definition fetched (m : gmap string value) (ids : list string) : list value :=
  omap (λ k, m !! k) ids.

(** A score with the conversions, among [conversions], that refer to it. *)
Definition attach (conversions : list value) (score : value) : LibraryEntry :=
  {| e_score := score;
     e_conversions :=
       filter (λ c, prop_key (scoreId_of c) = prop_key (id_of score))
              conversions |}.

(** The store once the metadata of the given conversions is deleted. *)
Definition without_conversions (m : gmap string value)
    (l : list Conversion) : gmap string value :=
  foldl (λ acc c, delete (c_id c) acc) m l.

(** The store after the conversions of a score, found through the index,
    and the score itself are deleted, and the conversion index rewritten. *)
Definition after_cascade (m : gmap string value) (uid scoreId : string)
    (conversionIds : list string) : gmap string value :=
  let scoreConversions :=
    scoreConversions_of scoreId (fetched m conversionIds) in
  delete scoreId
    (<[userConversionsKey uid :=
         VIndex (filter (λ id, id ∉ c_id <$> scoreConversions)
                        conversionIds)]>
       (without_conversions m scoreConversions)).

(** ** Scenarios: two users, alice and bob *)

Definition alice_req : request := {| authorization := Some "Bearer tok-a" |}.

Definition bob_req : request := {| authorization := Some "Bearer tok-b" |}.

Definition w0 : world :=
  {| kv := ∅;
     sessions := <["tok-a" := "alice"]> (<["tok-b" := "bob"]> ∅);
     kv_faults := [];
     blob_tape := [];
     timers := [] |}.

Definition png : File :=
  {| f_name := "prelude.png"; f_type := "image/png"; f_size := 2097152 |}.

Definition jpg : File :=
  {| f_name := "scan.jpg"; f_type := "image/jpg"; f_size := 4096 |}.

Definition txt : File :=
  {| f_name := "notes.txt"; f_type := "text/plain"; f_size := 12 |}.

Definition no_config : ConvertBody :=
  {| b_instruments := None; b_satbConfig := None; b_tempo := None |}.

Definition strings_at (tempo : Z) : ConvertBody :=
  {| b_instruments := Some ["violin"; "cello"];
     b_satbConfig := None;
     b_tempo := Some tempo |}.

(** A store holding one score uploaded by bob. *)
Definition bob_score : Score :=
  {| s_id := "score_bob_7";
     s_userId := "bob";
     s_fileName := "etude.pdf";
     s_filePath := "bob/7.pdf";
     s_fileType := "application/pdf";
     s_fileSize := 1024;
     s_uploadedAt := 8;
     s_url := "https://signed/bob/7.pdf" |}.

Definition bob_store : gmap string value :=
  <["score_bob_7" := VScore bob_score]> ∅.

(** The blob store accepts an upload and signs its path. *)
Definition w_up : world :=
  with_blob_tape
    [BlobOk "alice/1000.jpg"; BlobOk "https://signed/alice/1000.jpg"] w0.

(** The blob store accepts an upload and then fails to sign its path. *)
Definition w_unsigned : world :=
  with_blob_tape [BlobOk "alice/1000.png"; BlobErr "signing failed"] w0.

(** The store after alice uploaded a score at instant 1000. *)
Definition w_score : world :=
  (upload alice_req (Some png) 1000 1001
     (with_blob_tape
        [BlobOk "alice/1000.png"; BlobOk "https://signed/alice/1000.png"]
        w0)).2.

(** Alice has asked for a conversion of her score at instant 2000. *)
Definition w_processing : world :=
  (convert alice_req "score_alice_1000" (Some (strings_at 90))
     2000 2001 w_score).2.

(** The blob store signs the audio and the MIDI path. *)
Definition signing : list blob_outcome :=
  [BlobOk "https://signed/audio"; BlobOk "https://signed/midi"].

(** Alice asks twice, with two tempi, for a conversion of her score, and
    both calls read the instant 2000: they share one conversion id. *)
Definition w_twice : world :=
  (convert alice_req "score_alice_1000" (Some (strings_at 100)) 2000 2002
     w_processing).2.

(** The first of the two callbacks has run. *)
Definition w_first_done : world :=
  fire_timer 4000 (with_blob_tape signing w_twice).

(** The blob store raises when asked to sign the audio path. *)
Definition w_synthesis_fails : world :=
  with_blob_tape [BlobThrow] w_processing.

(** Alice's conversion has completed. *)
Definition w_completed : world :=
  fire_timer 4000 (with_blob_tape signing w_processing).

(** Alice then uploads a second score, at instant 5000. *)
Definition w_two_scores : world :=
  (upload alice_req (Some jpg) 5000 5001
     (with_blob_tape
        [BlobOk "alice/5000.jpg"; BlobOk "https://signed/alice/5000.jpg"]
        w_completed)).2.

(** [apiCall] of the client (lib/supabase): the [Authorization] header it
    sends.  The caller's own headers are spread first; the bearer token of
    the session, when there is one, overrides them. *)
Definition apiCall_authorization (access_token : option string)
    (given : option string) : option string :=
  if truthy access_token then Some ("Bearer " +:+ prop_key access_token)
  else given.

(** The string has no occurrence of the character. *)
Fixpoint free_of (ch : ascii) (s : string) : Prop :=
  match s with
  | EmptyString => True
  | String c r => c ≠ ch ∧ free_of ch r
  end.

(** Every run of [m] relates the world before to the world after by [P]. *)
Definition preserves (P : world → world → Prop) {A} (m : M A) : Prop :=
  ∀ w, P w (m w).2.

(** Nothing but the tape of store faults differs. *)
Definition only_read (w w' : world) : Prop :=
  kv w' = kv w ∧ sessions w' = sessions w
  ∧ timers w' = timers w ∧ blob_tape w' = blob_tape w.

(** The sessions and the pending timers are the same. *)
Definition same_sessions_timers (w w' : world) : Prop :=
  sessions w' = sessions w ∧ timers w' = timers w.

(** The blob path of an upload: [`${user.id}/${timestamp}.${fileExt}`]. *)
Definition fileName_at (uid : string) (timestamp : N) (file : File) : string :=
  uid +:+ "/" +:+ pretty timestamp +:+ "."
      +:+ default "" (last (split "." (f_name file))).

(** Nothing is stored yet; the blob store will accept an upload and sign
    its path. *)
Definition w_ready : world :=
  with_blob_tape
    [BlobOk "alice/1000.png"; BlobOk "https://signed/alice/1000.png"] w0.

(** ** [initializeBuckets]

    [listed] is the [data] of [listBuckets()], the names of the buckets,
    or [None] when the listing failed.  The result is the sequence of
    [createBucket] calls, each for a private bucket. *)
Definition buckets : list string := [SCORE_BUCKET; AUDIO_BUCKET; MIDI_BUCKET].

(** [existingBuckets?.some(bucket => bucket.name === bucketName)];
    [undefined], for a failed listing, is falsy. *)
Definition bucketExists (listed : option (list string)) (bucketName : string)
    : bool :=
  match listed with
  | Some names => bool_decide (bucketName ∈ names)
  | None => false
  end.

Definition initializeBuckets (listed : option (list string)) : list string :=
  filter (λ bucketName, bucketExists listed bucketName = false) buckets.


(** ** POST /signup *)

(** The parsed JSON body; an absent field is [None]. *)
Record SignupBody := {
  sb_email : option string;
  sb_password : option string;
  sb_name : option string;
}.

(** The argument of [supabase.auth.admin.createUser]. *)
Record CreateUser := {
  cu_email : string;
  cu_password : string;
  cu_name : string;
  cu_email_confirm : bool;
}.

(** What the identity provider answers: [{ data: { user } }], [{ error }],
    or a raised exception. *)
Inductive created :=
| Created (user : string)
| Refused (message : string)
| Raised.

Inductive signup_response :=
| SignupOk (user : string) (message : string)
| SignupError (code : nat) (error : string).

(** [name || email.split('@')[0]] *)
Definition display_name (name : option string) (email : string) : string :=
  str_or name (default "" (head (split "@" email))).

(** [body = None] is a request whose body does not parse. *)
Definition signup (body : option SignupBody)
    (createUser : CreateUser → created) : signup_response :=
  match body with
  | None => SignupError 500 "Internal server error during signup"
  | Some b =>
    if negb (truthy (sb_email b)) || negb (truthy (sb_password b)) then
      SignupError 400 "Email and password are required"
    else
      match createUser {| cu_email := prop_key (sb_email b);
                          cu_password := prop_key (sb_password b);
                          cu_name := display_name (sb_name b)
                                       (prop_key (sb_email b));
                          cu_email_confirm := true |} with
      | Created user => SignupOk user "Account created successfully"
      | Refused message =>
          SignupError 400 ("Failed to create user: " +:+ message)
      | Raised => SignupError 500 "Internal server error during signup"
      end
  end.

(** ** The upload area (components/upload-area.tsx) *)

Definition acceptedTypes : list string :=
  ["image/jpeg"; "image/png"; "image/jpg"; "application/pdf"].

(** [maxSizeMB * 1024 * 1024] *)
Definition maxSizeBytes (maxSizeMB : N) : N := (maxSizeMB * 1024 * 1024)%N.

(** [validateFile]: the error shown, or [None] for [null].
    [formatFileSize] comes from lib/utils, which is not among the
    sources; it only words the message. *)
Definition validateFile (formatFileSize : N → string) (maxSizeMB : N)
    (file : File) : option string :=
  if negb (includes acceptedTypes (f_type file)) then
    Some "Invalid file type. Please upload JPG, PNG, or PDF files only."
  else if (maxSizeBytes maxSizeMB <? f_size file)%N then
    Some ("File size exceeds " +:+ pretty maxSizeMB
          +:+ "MB limit. Current size: " +:+ formatFileSize (f_size file))
  else None.

(** A scan of 11 MB, above the limit of 10 MB. *)
Definition big_png : File :=
  {| f_name := "full-score.png"; f_type := "image/png";
     f_size := 11534336 |}.

(** ** The SATB selector (components/satb-selector.tsx)

    The selector holds a full configuration, one setting per voice. *)

Inductive VoiceId := soprano | alto | tenor | bass.

Definition VOICES : list VoiceId := [soprano; alto; tenor; bass].

Record Voices := {
  of_soprano : VoiceSettings;
  of_alto : VoiceSettings;
  of_tenor : VoiceSettings;
  of_bass : VoiceSettings;
}.

(** [config[voiceId]] *)
Definition voice (config : Voices) (voiceId : VoiceId) : VoiceSettings :=
  match voiceId with
  | soprano => of_soprano config
  | alto => of_alto config
  | tenor => of_tenor config
  | bass => of_bass config
  end.

(** [{ ...config, [voiceId]: settings }] *)
Definition with_voice (config : Voices) (voiceId : VoiceId)
    (settings : VoiceSettings) : Voices :=
  match voiceId with
  | soprano => {| of_soprano := settings; of_alto := of_alto config;
                  of_tenor := of_tenor config; of_bass := of_bass config |}
  | alto => {| of_soprano := of_soprano config; of_alto := settings;
               of_tenor := of_tenor config; of_bass := of_bass config |}
  | tenor => {| of_soprano := of_soprano config; of_alto := of_alto config;
                of_tenor := settings; of_bass := of_bass config |}
  | bass => {| of_soprano := of_soprano config; of_alto := of_alto config;
               of_tenor := of_tenor config; of_bass := settings |}
  end.

Definition with_enabled (s : VoiceSettings) (b : bool) : VoiceSettings :=
  {| enabled := b; solo := solo s; volume := volume s |}.

Definition with_solo (s : VoiceSettings) (b : bool) : VoiceSettings :=
  {| enabled := enabled s; solo := b; volume := volume s |}.

Definition with_volume (s : VoiceSettings) (v : Z) : VoiceSettings :=
  {| enabled := enabled s; solo := solo s; volume := v |}.

Definition handleToggleEnabled (voiceId : VoiceId) (config : Voices)
    : Voices :=
  with_voice config voiceId
    (with_enabled (voice config voiceId)
       (negb (enabled (voice config voiceId)))).

#[global] Instance VoiceId_eq_dec : EqDecision VoiceId.
Proof. solve_decision. Defined.

(** If the voice is solo, only that flag is cleared; otherwise the loop
    over [VOICES] sets the flag of every voice, to [true] for this one. *)
Definition handleToggleSolo (voiceId : VoiceId) (config : Voices) : Voices :=
  if solo (voice config voiceId) then
    with_voice config voiceId (with_solo (voice config voiceId) false)
  else
    foldl (λ newConfig v,
             with_voice newConfig v
               (with_solo (voice newConfig v) (bool_decide (v = voiceId))))
          config VOICES.

Definition handleVolumeChange (voiceId : VoiceId) (volume : Z)
    (config : Voices) : Voices :=
  with_voice config voiceId (with_volume (voice config voiceId) volume).

Definition resetVoice : VoiceSettings :=
  {| enabled := true; solo := false; volume := 100 |}.

Definition handleResetAll : Voices :=
  {| of_soprano := resetVoice; of_alto := resetVoice;
     of_tenor := resetVoice; of_bass := resetVoice |}.

(** [VOICES.some(voice => config[voice.id].solo)] *)
Definition anySolo (config : Voices) : bool :=
  existsb (λ v, solo (voice config v)) VOICES.

(** [voiceConfig.enabled && (!anySolo || voiceConfig.solo)] *)
Definition isActive (config : Voices) (voiceId : VoiceId) : bool :=
  enabled (voice config voiceId)
  && (negb (anySolo config) || solo (voice config voiceId)).

(** What the user does in the selector. *)
Inductive satb_action :=
| ToggleEnabled (v : VoiceId)
| ToggleSolo (v : VoiceId)
| VolumeChange (v : VoiceId) (volume : Z)
| ResetAll.

Definition satb_step (config : Voices) (a : satb_action) : Voices :=
  match a with
  | ToggleEnabled v => handleToggleEnabled v config
  | ToggleSolo v => handleToggleSolo v config
  | VolumeChange v volume => handleVolumeChange v volume config
  | ResetAll => handleResetAll
  end.

(** At most one voice is solo. *)
Definition one_solo_at_most (config : Voices) : Prop :=
  ∀ u v, solo (voice config u) = true → solo (voice config v) = true → u = v.

(** The configuration sent with a conversion. *)
Definition to_satbConfig (config : Voices) : SATBConfig :=
  Satb (of_soprano config) (of_alto config) (of_tenor config)
       (of_bass config).

(** ** The instrument selector (components/instrument-selector.tsx) *)

Inductive SelectorMode := solo_mode | ensemble_mode.

(** [!maxSelections || selectedInstruments.length < maxSelections]:
    [undefined] and [0] are falsy. *)
Definition under_limit (maxSelections : option Z) (selected : list string)
    : bool :=
  match maxSelections with
  | None => true
  | Some m => (m =? 0) || (Z.of_nat (List.length selected) <? m)
  end.

Definition handleInstrumentToggle (mode : SelectorMode)
    (maxSelections : option Z) (selectedInstruments : list string)
    (instrumentId : string) : list string :=
  if includes selectedInstruments instrumentId then
    filter (λ id, id ≠ instrumentId) selectedInstruments
  else
    match mode with
    | solo_mode => [instrumentId]
    | ensemble_mode =>
      if under_limit maxSelections selectedInstruments then
        (selectedInstruments ++ [instrumentId])%list
      else selectedInstruments
    end.

Definition handleClearAll : list string := [].

(** A click in the selector: on an instrument, or on "Clear all". *)
Inductive selector_action :=
| Toggle (instrumentId : string)
| ClearAll.

Definition selector_step (mode : SelectorMode) (maxSelections : option Z)
    (selected : list string) (a : selector_action) : list string :=
  match a with
  | Toggle instrumentId =>
    handleInstrumentToggle mode maxSelections selected instrumentId
  | ClearAll => handleClearAll
  end.

(** ** The upload page (pages/home.tsx): [handleConvert] *)

Inductive ConversionMode := instruments_mode | satb_mode.

(** What [handleConvert] does first: it shows a toast and returns, or it
    posts a body to [/scores/${scoreId}/convert]. *)
Inductive convert_attempt :=
| Toast (message : string)
| Post (scoreId : string) (body : ConvertBody).

(** [scoreId] is the page's state, [None] for [null]; [tempo] is the
    page's number, [None] for the [NaN] that [parseInt] gives on an empty
    field.  In the body, [JSON.stringify] drops a property that is
    [undefined] and writes [NaN] as [null], which the handler's
    [tempo || 120] treats as the absent field. *)
Definition handleConvert (scoreId : option string) (mode : ConversionMode)
    (selectedInstruments : list string) (satbConfig : Voices)
    (tempo : option Z) : convert_attempt :=
  if negb (truthy scoreId) then Toast "Please upload a score first"
  else
    match mode, selectedInstruments with
    | instruments_mode, [] => Toast "Please select at least one instrument"
    | _, _ =>
      Post (prop_key scoreId)
        {| b_instruments :=
             Some (match mode with
                   | instruments_mode => selectedInstruments
                   | satb_mode => []
                   end);
           b_satbConfig :=
             match mode with
             | satb_mode => Some (to_satbConfig satbConfig)
             | instruments_mode => None
             end;
           b_tempo := tempo |}
    end.

(** ** The library page: [handleScoreSelect]

    The path the page navigates to. *)
Definition handleScoreSelect (score : LibraryEntry) : string :=
  match e_conversions score with
  | latestConversion :: _ => "/playback/" +:+ prop_key (id_of latestConversion)
  | [] => "/upload"
  end.

(** Alice converts her score a second time, at instant 6000, and this
    conversion completes too. *)
Definition w_two_conversions : world :=
  fire_timer 8000
    (with_blob_tape signing
       (convert alice_req "score_alice_1000" (Some (strings_at 60))
          6000 6001 w_completed).2).

(** ** The library page: [handleScoreDelete]

    [response.ok]: the status is in the range 200-299.  Every answer but
    an error is sent with status 200. *)
Definition response_ok (r : response) : bool :=
  match r with
  | RError code _ => (200 <=? code)%nat && (code <=? 299)%nat
  | _ => true
  end.

(** The page's list of scores once the answer [r] to the DELETE request
    has arrived: on success the score is filtered out of the local list,
    otherwise the list is left as it is. *)
Definition handleScoreDelete (scores : list LibraryEntry) (scoreId : string)
    (r : response) : list LibraryEntry :=
  if response_ok r then
    filter (λ s, prop_key (id_of (e_score s)) ≠ scoreId) scores
  else scores.

(** Every id of the index is the key of a score record with that id. *)
Definition scores_indexed (m : gmap string value) (ids : list string)
    : Prop :=
  ∀ k, k ∈ ids → ∃ s, m !! k = Some (VScore s) ∧ s_id s = k.

(** Every id of the index is the key of a conversion record with that
    id. *)
Definition conversions_indexed (m : gmap string value) (ids : list string)
    : Prop :=
  ∀ k, k ∈ ids → ∃ c, m !! k = Some (VConversion c) ∧ c_id c = k.

(** * Properties *)

(** ** Identifiers *)

Lemma pretty_N_char_digit x : is_digit (pretty_N_char x).
Proof.
  unfold is_digit, pretty_N_char.
  repeat case_match; set_solver.
Qed.

Lemma pretty_N_go_digits x :
  ∀ s, all_digits s → all_digits (pretty_N_go x s).
Proof.
  induction (N.lt_wf_0 x) as [x _ IH]; intros s Hs.
  destruct (decide (x = 0%N)) as [->|Hx].
  - by rewrite pretty_N_go_0.
  - rewrite pretty_N_go_step by lia.
    apply IH.
    + apply N.div_lt; lia.
    + split; [apply pretty_N_char_digit | done].
Qed.

Lemma pretty_N_digits (x : N) : all_digits (pretty x).
Proof.
  unfold pretty, pretty_N. case_decide.
  - split; [unfold is_digit; set_solver | done].
  - by apply pretty_N_go_digits.
Qed.

Lemma underscore_not_digit : ¬ is_digit "_".
Proof.
  unfold is_digit. intros H.
  repeat (apply elem_of_cons in H as [H|H]; [discriminate|]).
  by apply elem_of_nil in H.
Qed.

Lemma all_digits_no_underscore r p : ¬ all_digits (r +:+ "_" +:+ p).
Proof.
  induction r as [|ch r IH]; simpl.
  - intros [H _]. by apply underscore_not_digit.
  - intros [_ H]. by apply IH.
Qed.

Lemma append_nil_l (s : string) : "" +:+ s = s.
Proof. reflexivity. Qed.

Lemma append_cons (a : ascii) (s t : string) :
  String a s +:+ t = String a (s +:+ t).
Proof. reflexivity. Qed.

Lemma append_inj_l (p a b : string) : p +:+ a = p +:+ b → a = b.
Proof.
  induction p as [|ch p IH]; [done|].
  rewrite !append_cons. intros [= H]. by apply IH.
Qed.

(** The last underscore of an id separates the user from the instant. *)
Lemma user_instant_inj (u1 u2 : string) (t1 t2 : N) :
  u1 +:+ "_" +:+ pretty t1 = u2 +:+ "_" +:+ pretty t2 → u1 = u2 ∧ t1 = t2.
Proof.
  revert u2. induction u1 as [|a u1 IH]; intros [|b u2];
    rewrite ?append_nil_l, ?append_cons, ?append_nil_l; intros H.
  - injection H as H. split; [done | by apply (inj pretty)].
  - injection H as _ H. exfalso.
    pose proof (pretty_N_digits t1) as D. rewrite H in D.
    by apply (all_digits_no_underscore u2 (pretty t2)).
  - injection H as _ H. exfalso.
    pose proof (pretty_N_digits t2) as D. rewrite <- H in D.
    by apply (all_digits_no_underscore u1 (pretty t1)).
  - injection H as -> H. destruct (IH u2) as [-> ->]; done.
Qed.

Lemma scoreId_at_inj u1 t1 u2 t2 :
  scoreId_at u1 t1 = scoreId_at u2 t2 → u1 = u2 ∧ t1 = t2.
Proof.
  intros H. by apply user_instant_inj, (append_inj_l "score_").
Qed.

Lemma conversionId_at_inj u1 t1 u2 t2 :
  conversionId_at u1 t1 = conversionId_at u2 t2 → u1 = u2 ∧ t1 = t2.
Proof.
  intros H. by apply user_instant_inj, (append_inj_l "conversion_").
Qed.

Lemma scoreId_not_conversionId u1 t1 u2 t2 :
  scoreId_at u1 t1 ≠ conversionId_at u2 t2.
Proof. discriminate. Qed.

Lemma scoreId_not_index u t u' : scoreId_at u t ≠ userScoresKey u'.
Proof. discriminate. Qed.

Lemma conversionId_not_index u t u' :
  conversionId_at u t ≠ userConversionsKey u'.
Proof. discriminate. Qed.

(** ** Reasoning about handler runs *)

Ltac unfold_M := unfold mbind, mret, M_bind, M_ret, throw in *.

Lemma verifyAuth_world req w : (verifyAuth req w).2 = w.
Proof. unfold verifyAuth. by repeat case_match. Qed.

Lemma verifyAuth_is_Some req w : is_Some (verifyAuth req w).1.
Proof. unfold verifyAuth. repeat case_match; by eexists. Qed.

(** Authentication only reads the table of sessions. *)
Lemma verifyAuth_sessions req w w' :
  sessions w = sessions w' → (verifyAuth req w').1 = (verifyAuth req w).1.
Proof. unfold verifyAuth. intros ->. by repeat case_match. Qed.

Lemma verifyAuth_run req w w' a :
  (verifyAuth req w).1 = Some a → sessions w = sessions w' →
  verifyAuth req w' = (Some a, w').
Proof.
  intros H Hs. rewrite <- (verifyAuth_sessions req w w' Hs) in H.
  pose proof (verifyAuth_world req w') as Hw.
  destruct (verifyAuth req w') as [r x]. simpl in *. congruence.
Qed.

Lemma denied_missing uid : denied uid None = true.
Proof. done. Qed.

Lemma denied_foreign uid doc :
  userId_of doc ≠ Some uid → denied uid (Some doc) = true.
Proof. intros H. unfold denied. by rewrite bool_decide_eq_true. Qed.

Lemma denied_owned uid doc :
  userId_of doc = Some uid → denied uid (Some doc) = false.
Proof. intros H. unfold denied. rewrite bool_decide_eq_false. tauto. Qed.

Section Denied.
Variables (req : request) (uid id : string) (w : world).
Hypothesis Hauth : (verifyAuth req w).1 = Some (inl uid).
Hypothesis Hdenied : denied uid (kv w !! id) = true.

Lemma convert_denied body ts now :
  convert req id (Some body) ts now w =
    after_lookup "Internal server error during conversion"
                 "Score not found or access denied" w.
Proof.
  unfold convert, try_catch, after_lookup. unfold_M.
  rewrite (verifyAuth_run req w w _ Hauth eq_refl).
  unfold kv_get, kv_call. simpl.
  destruct (kv_faults w) as [|[] t]; simpl; try done.
  all: rewrite Hdenied; done.
Qed.

Lemma convert_unparsed ts now :
  convert req id None ts now w =
    (RError 500 "Internal server error during conversion", w).
Proof.
  unfold convert, try_catch. unfold_M.
  by rewrite (verifyAuth_run req w w _ Hauth eq_refl).
Qed.

Lemma getConversion_denied :
  getConversion req id w =
    after_lookup "Internal server error fetching conversion"
                 "Conversion not found or access denied" w.
Proof.
  unfold getConversion, try_catch, after_lookup. unfold_M.
  rewrite (verifyAuth_run req w w _ Hauth eq_refl).
  unfold kv_get, kv_call. simpl.
  destruct (kv_faults w) as [|[] t]; simpl; try done.
  all: rewrite Hdenied; done.
Qed.

Lemma deleteScore_denied :
  deleteScore req id w =
    after_lookup "Internal server error during deletion"
                 "Score not found or access denied" w.
Proof.
  unfold deleteScore, try_catch, after_lookup. unfold_M.
  rewrite (verifyAuth_run req w w _ Hauth eq_refl).
  unfold kv_get, kv_call. simpl.
  destruct (kv_faults w) as [|[] t]; simpl; try done.
  all: rewrite Hdenied; done.
Qed.
End Denied.

(** C4. For Convert, Status Read and Delete Score, a request naming a
    missing entity and a request naming an entity of another user get the
    same response (status 404 with the same message when the store
    answers) and leave the store as it was: the two cases cannot be told
    apart. *)
Theorem missing_and_foreign_indistinguishable
    (req : request) (uid id : string) (w : world)
    (m_missing m_foreign : gmap string value) (doc : value)
    (body : option ConvertBody) (ts now : N) :
  (verifyAuth req w).1 = Some (inl uid) →
  m_missing !! id = None →
  m_foreign !! id = Some doc →
  userId_of doc ≠ Some uid →
  let w1 := with_kv m_missing w in
  let w2 := with_kv m_foreign w in
  ((convert req id body ts now w1).1 = (convert req id body ts now w2).1
   ∧ (getConversion req id w1).1 = (getConversion req id w2).1
   ∧ (deleteScore req id w1).1 = (deleteScore req id w2).1)
  ∧ (calm 1 w →
     (is_Some body →
      (convert req id body ts now w1).1
        = RError 404 "Score not found or access denied")
     ∧ (getConversion req id w1).1
        = RError 404 "Conversion not found or access denied"
     ∧ (deleteScore req id w1).1
        = RError 404 "Score not found or access denied")
  ∧ (kv (convert req id body ts now w1).2 = m_missing
     ∧ kv (getConversion req id w1).2 = m_missing
     ∧ kv (deleteScore req id w1).2 = m_missing)
  ∧ (kv (convert req id body ts now w2).2 = m_foreign
     ∧ kv (getConversion req id w2).2 = m_foreign
     ∧ kv (deleteScore req id w2).2 = m_foreign).
Proof.
  intros Hauth Hmiss Hfor Hother w1 w2.
  assert (A1 : (verifyAuth req w1).1 = Some (inl uid)).
  { by rewrite (verifyAuth_sessions req w w1). }
  assert (A2 : (verifyAuth req w2).1 = Some (inl uid)).
  { by rewrite (verifyAuth_sessions req w w2). }
  assert (D1 : denied uid (kv w1 !! id) = true).
  { simpl. by rewrite Hmiss. }
  assert (D2 : denied uid (kv w2 !! id) = true).
  { simpl. rewrite Hfor. by apply denied_foreign. }
  rewrite (getConversion_denied req uid id w1 A1 D1),
    (getConversion_denied req uid id w2 A2 D2),
    (deleteScore_denied req uid id w1 A1 D1),
    (deleteScore_denied req uid id w2 A2 D2).
  assert (C : ∀ w', (verifyAuth req w').1 = Some (inl uid) →
            denied uid (kv w' !! id) = true →
            convert req id body ts now w' =
              match body with
              | Some _ => after_lookup "Internal server error during conversion"
                            "Score not found or access denied" w'
              | None =>
                  (RError 500 "Internal server error during conversion", w')
              end).
  { intros w' A D. destruct body.
    - by apply (convert_denied req uid).
    - by apply (convert_unparsed req uid). }
  rewrite (C w1 A1 D1), (C w2 A2 D2).
  unfold after_lookup, calm. simpl.
  split_and!; try done; try by destruct body.
  intros Hcalm.
  assert (head (kv_faults w) ≠ Some true) as Hh.
  { destruct (kv_faults w) as [|b t]; [done|].
    simpl in Hcalm. apply Forall_cons in Hcalm as [-> _]. done. }
  rewrite bool_decide_eq_false_2 by done.
  split_and!; try done. by intros [b ->].
Qed.

Lemma missing_and_foreign_indistinguishable_witness :
  (getConversion alice_req "score_bob_7" (with_kv ∅ w0)).1
    = RError 404 "Conversion not found or access denied"
  ∧ (getConversion alice_req "score_bob_7" (with_kv ∅ w0)).1
    = (getConversion alice_req "score_bob_7" (with_kv bob_store w0)).1.
Proof.
  destruct (missing_and_foreign_indistinguishable
              alice_req "alice" "score_bob_7" w0 ∅ bob_store
              (VScore bob_score) (Some no_config) 5 6)
    as [(_ & E & _) [C _]].
  - vm_compute; reflexivity.
  - reflexivity.
  - vm_compute; reflexivity.
  - discriminate.
  - split; [|exact E]. apply C. repeat constructor.
Defined.

(** Symbolic execution of a handler run recorded in hypothesis [H]: case
    on the next oracle value or store document that the run inspects. *)
Ltac step_in H :=
  match type of H with
  | context [match ?l with [] => _ | _ :: _ => _ end] =>
      is_var l; destruct l as [|[] l]
  | context [as_index (?m !! ?k)] =>
      let E := fresh "Hdoc" in destruct (m !! k) as [[?|?|?]|] eqn:E
  end.

Ltac run_in H tac := tac; repeat (step_in H; tac).

(** C5 (amended). Upload rejects with a validation error exactly the files
    whose declared type is outside image/jpeg, image/png, image/jpg and
    application/pdf, and then leaves the world untouched; on a blob-store
    error the response is an error and the store is unchanged; the store
    changes only after the blob was uploaded, and the score index changes
    only when the score metadata is persisted too. *)
Theorem upload_validation_and_write_order
    (req : request) (uid : string) (file : File) (ts now : N) (w : world) :
  (verifyAuth req w).1 = Some (inl uid) →
  let r := (upload req (Some file) ts now w).1 in
  let w' := (upload req (Some file) ts now w).2 in
  (f_type file ∉ ["image/jpeg"; "image/png"; "image/jpg"; "application/pdf"] ↔
     r = RError 400
           "Invalid file type. Please upload JPG, PNG, or PDF files only.")
  ∧ (f_type file ∉ ["image/jpeg"; "image/png"; "image/jpg"; "application/pdf"]
     → w' = w)
  ∧ (blob_store_error (blob_tape w) →
     (∃ code msg, r = RError code msg) ∧ kv w' = kv w)
  ∧ (kv w' ≠ kv w → blob_uploaded (blob_tape w))
  ∧ (kv w' !! userScoresKey uid ≠ kv w !! userScoresKey uid →
     ∃ md url, kv w' !! scoreId_at uid ts = Some (VScore md)
               ∧ r = RUpload (scoreId_at uid ts) url md).
Proof.
  intros Hauth.
  destruct (upload req (Some file) ts now w) as [r w'] eqn:Hrun. simpl.
  unfold upload, try_catch in Hrun. unfold_M.
  rewrite (verifyAuth_run req w w _ Hauth eq_refl) in Hrun.
  unfold includes, allowedTypes in Hrun.
  destruct (decide (f_type file ∈
    ["image/jpeg"; "image/png"; "image/jpg"; "application/pdf"])) as [Hin|Hout].
  2:{ rewrite bool_decide_eq_false_2 in Hrun by done. simpl in Hrun.
      injection Hrun as <- <-.
      split_and!; try done. intros Hb. split; [by eauto|done]. }
  rewrite bool_decide_eq_true_2 in Hrun by done. simpl in Hrun.
  unfold storage_upload, storage_createSignedUrl, blob_call, get_index,
    kv_set, kv_get, kv_call in Hrun.
  unfold_M.
  destruct w as [m sess faults tape tms].
  run_in Hrun ltac:(cbn -[new_score] in Hrun;
    rewrite ?(lookup_insert_ne m (scoreId_at uid ts) (userScoresKey uid))
      in Hrun by apply scoreId_not_index).
  all: injection Hrun as <- <-; cbn -[new_score].
  all: rewrite ?(lookup_insert_ne m (scoreId_at uid ts) (userScoresKey uid))
    by apply scoreId_not_index.
  all: split_and!;
    [ split; [by intros ? | discriminate]
    | by intros ?
    | first [ by intros [] | intros _; split; [by eauto | done] ]
    | first [ by intros _ | intros H; exfalso; apply H; done ]
    | first [ intros H; exfalso; apply H; done | intros _ ] ].
  all: do 2 eexists; (split; [|reflexivity]).
  all: rewrite lookup_insert_ne by (apply not_eq_sym, scoreId_not_index).
  all: by rewrite lookup_insert_eq.
Qed.

Ltac not_elem_of_list :=
  let H := fresh in
  intros H; repeat (apply elem_of_cons in H as [H|H]; [discriminate|]);
  by apply elem_of_nil in H.

Lemma upload_validation_and_write_order_witness :
  (upload alice_req (Some txt) 1000 1001 w0).2 = w0.
Proof.
  destruct (upload_validation_and_write_order
              alice_req "alice" txt 1000 1001 w0) as (_ & H & _).
  - vm_compute; reflexivity.
  - apply H. simpl. not_elem_of_list.
Defined.

(** C5, as stated, fails: a file declared as image/jpg, which is outside
    image/jpeg, image/png and application/pdf, is accepted and stored. *)
Lemma upload_accepts_image_jpg :
  (f_type jpg ∉ ["image/jpeg"; "image/png"; "application/pdf"])
  ∧ ∃ md, (upload alice_req (Some jpg) 1000 1001 w_up).1
            = RUpload "score_alice_1000"
                      (Some "https://signed/alice/1000.jpg") md
          ∧ s_fileType md = "image/jpg"
          ∧ kv (upload alice_req (Some jpg) 1000 1001 w_up).2
              !! "score_alice_1000" = Some (VScore md)
          ∧ kv (upload alice_req (Some jpg) 1000 1001 w_up).2
              !! "user_scores_alice" = Some (VIndex ["score_alice_1000"]).
Proof.
  split; [simpl; not_elem_of_list|].
  eexists. split_and!; vm_compute; reflexivity.
Qed.

Lemma calm_cons n b t m sess tape tms :
  calm (S n) {| kv := m; sessions := sess; kv_faults := b :: t;
                blob_tape := tape; timers := tms |} →
  b = false ∧ calm n {| kv := m; sessions := sess; kv_faults := t;
                        blob_tape := tape; timers := tms |}.
Proof. unfold calm. simpl. by intros [? ?]%Forall_cons. Qed.

Ltac calm_false H :=
  exfalso; repeat (apply calm_cons in H as [? H]); discriminate.

(** C10. When issuing the signed URL fails after the blob was uploaded, the
    upload still succeeds: the score is persisted with an empty [url], its
    id is appended to the score index, and the response carries the score
    id and no URL. *)
Theorem upload_survives_signing_failure
    (req : request) (uid : string) (file : File) (ts now : N) (w : world)
    (d e : string) (tape : list blob_outcome) (ids : list string) :
  (verifyAuth req w).1 = Some (inl uid) →
  f_type file ∈ allowedTypes →
  blob_tape w = BlobOk d :: BlobErr e :: tape →
  calm 3 w →
  as_index (kv w !! userScoresKey uid) = Some ids →
  let w' := (upload req (Some file) ts now w).2 in
  ∃ md, (upload req (Some file) ts now w).1
          = RUpload (scoreId_at uid ts) None md
        ∧ s_url md = "" ∧ s_id md = scoreId_at uid ts ∧ s_userId md = uid
        ∧ kv w' !! scoreId_at uid ts = Some (VScore md)
        ∧ kv w' !! userScoresKey uid
            = Some (VIndex (ids ++ [scoreId_at uid ts])).
Proof.
  intros Hauth Hin Htape Hcalm Hidx.
  destruct (upload req (Some file) ts now w) as [r w'] eqn:Hrun. simpl.
  unfold upload, try_catch in Hrun. unfold_M.
  rewrite (verifyAuth_run req w w _ Hauth eq_refl) in Hrun.
  unfold includes in Hrun.
  rewrite bool_decide_eq_true_2 in Hrun by done. simpl in Hrun.
  unfold storage_upload, storage_createSignedUrl, blob_call, get_index,
    kv_set, kv_get, kv_call in Hrun.
  unfold_M.
  destruct w as [m sess faults tape' tms]. simpl in Htape, Hidx. subst tape'.
  cbn -[new_score] in Hrun.
  destruct faults as [|[] [|[] [|[] faults]]]; try calm_false Hcalm.
  all: cbn -[new_score] in Hrun.
  all: rewrite ?(lookup_insert_ne m (scoreId_at uid ts) (userScoresKey uid))
      in Hrun by apply scoreId_not_index.
  all: rewrite Hidx in Hrun; cbn -[new_score] in Hrun.
  all: injection Hrun as <- <-; cbn -[new_score].
  all: eexists; split_and!; try reflexivity.
  all: try by rewrite lookup_insert_eq.
  all: rewrite lookup_insert_ne by (apply not_eq_sym, scoreId_not_index).
  all: by rewrite lookup_insert_eq.
Qed.

Lemma upload_survives_signing_failure_witness :
  ∃ md, (upload alice_req (Some png) 1000 1001 w_unsigned).1
          = RUpload "score_alice_1000" None md
        ∧ s_url md = "".
Proof.
  destruct (upload_survives_signing_failure
              alice_req "alice" png 1000 1001 w_unsigned
              "alice/1000.png" "signing failed" [] [])
    as (md & H1 & H2 & _).
  - vm_compute; reflexivity.
  - unfold allowedTypes. simpl. set_solver.
  - reflexivity.
  - unfold calm. simpl. constructor.
  - reflexivity.
  - exists md. split; [exact H1 | exact H2].
Defined.

(** ** Convert *)

Lemma verifyAuth_eq req w :
  verifyAuth req w = ((verifyAuth req w).1, w).
Proof.
  pose proof (verifyAuth_world req w).
  destruct (verifyAuth req w). simpl in *. congruence.
Qed.

(** A convert call that answers with a conversion id has authenticated the
    caller, found the score among the caller's documents, stored the new
    conversion and scheduled its completion. *)
Lemma convert_success_inv req scoreId body ts now w cid st msg :
  (convert req scoreId body ts now w).1 = RConvert cid st msg →
  ∃ uid b,
    (verifyAuth req w).1 = Some (inl uid)
    ∧ body = Some b
    ∧ denied uid (kv w !! scoreId) = false
    ∧ cid = conversionId_at uid ts ∧ st = processing
    ∧ kv (convert req scoreId body ts now w).2
        = <[cid := VConversion (new_conversion cid scoreId uid b now)]> (kv w)
    ∧ timers (convert req scoreId body ts now w).2
        = (timers w ++ [timer_of uid scoreId b ts now])%list.
Proof.
  destruct (convert req scoreId body ts now w) as [r w'] eqn:Hrun. simpl.
  intros ->.
  unfold convert, try_catch in Hrun. unfold_M.
  rewrite verifyAuth_eq in Hrun.
  destruct (verifyAuth req w).1 as [[uid|err]|] eqn:Hauth;
    [|discriminate..].
  destruct body as [b|]; [|discriminate].
  unfold kv_set, kv_get, kv_call, setTimeout in Hrun. unfold_M.
  destruct w as [m sess faults tape tms].
  destruct (denied uid (m !! scoreId)) eqn:Hd.
  - destruct faults as [|[] ?]; cbn -[new_conversion] in Hrun;
      rewrite ?Hd in Hrun; discriminate.
  - exists uid, b.
    destruct faults as [|[] [|[] faults]];
      cbn -[new_conversion] in Hrun; rewrite ?Hd in Hrun;
      cbn -[new_conversion] in Hrun; try discriminate.
    all: injection Hrun as <- <- <- <-; cbn -[new_conversion].
    all: by split_and!.
Qed.

(** On a score of the caller, with a store that answers, convert stores
    the conversion and schedules its completion. *)
Lemma convert_run req uid scoreId doc b ts now w :
  (verifyAuth req w).1 = Some (inl uid) →
  kv w !! scoreId = Some doc →
  userId_of doc = Some uid →
  calm 2 w →
  let cid := conversionId_at uid ts in
  (convert req scoreId (Some b) ts now w).1
     = RConvert cid processing convert_started
  ∧ kv (convert req scoreId (Some b) ts now w).2
     = <[cid := VConversion (new_conversion cid scoreId uid b now)]> (kv w)
  ∧ timers (convert req scoreId (Some b) ts now w).2
     = (timers w ++ [timer_of uid scoreId b ts now])%list.
Proof.
  intros Hauth Hdoc Hown Hcalm cid.
  assert (R : (convert req scoreId (Some b) ts now w).1
                = RConvert cid processing convert_started).
  { unfold convert, try_catch. unfold_M.
    rewrite (verifyAuth_run req w w _ Hauth eq_refl).
    unfold kv_set, kv_get, kv_call, setTimeout. unfold_M.
    destruct w as [m sess faults tape tms]. simpl in Hdoc.
    destruct faults as [|[] [|[] faults]]; try calm_false Hcalm.
    all: cbn -[new_conversion]; rewrite Hdoc, (denied_owned _ _ Hown).
    all: reflexivity. }
  split; [exact R|].
  destruct (convert_success_inv _ _ _ _ _ _ _ _ _ R)
    as (uid' & b' & Hauth' & [= <-] & _ & _ & _ & Hkv & Htm).
  assert (uid' = uid) as -> by congruence.
  by split.
Qed.

(** C8 (amended). A Convert call on a score of the caller, with a store
    that answers, persists a processing Conversion before it returns (the
    completion is only scheduled).  Absent configuration fields take the
    defaults: no instruments, the empty SATB configuration, tempo 120.  A
    supplied tempo is stored as it is, whatever its value, except 0 which
    is replaced by 120: no range is enforced. *)
Theorem convert_persists_processing
    (req : request) (uid scoreId : string) (doc : value) (b : ConvertBody)
    (ts now : N) (w : world) :
  (verifyAuth req w).1 = Some (inl uid) →
  kv w !! scoreId = Some doc →
  userId_of doc = Some uid →
  calm 2 w →
  let cid := conversionId_at uid ts in
  let w' := (convert req scoreId (Some b) ts now w).2 in
  (convert req scoreId (Some b) ts now w).1
    = RConvert cid processing convert_started
  ∧ timers w' = (timers w ++ [timer_of uid scoreId b ts now])%list
  ∧ ∃ c, kv w' !! cid = Some (VConversion c)
      ∧ c_status c = processing
      ∧ c_id c = cid ∧ c_scoreId c = scoreId ∧ c_userId c = uid
      ∧ c_instruments c = default [] (b_instruments b)
      ∧ c_satbConfig c = default SatbEmpty (b_satbConfig b)
      ∧ (b_tempo b = None → c_tempo c = 120)
      ∧ (∀ t, b_tempo b = Some t → c_tempo c = if t =? 0 then 120 else t).
Proof.
  intros Hauth Hdoc Hown Hcalm cid w'.
  destruct (convert_run req uid scoreId doc b ts now w Hauth Hdoc Hown Hcalm)
    as (R & Hkv & Htm).
  split_and!; [done..|].
  subst w'. rewrite Hkv, lookup_insert_eq.
  eexists. split; [reflexivity|]. simpl.
  split_and!; try done.
  - by intros ->.
  - by intros t ->.
Qed.

Lemma convert_persists_processing_witness :
  ∃ c, kv (convert alice_req "score_alice_1000" (Some (strings_at 90))
             2000 2001 w_score).2 !! "conversion_alice_2000"
         = Some (VConversion c)
       ∧ c_status c = processing ∧ c_tempo c = 90.
Proof.
  destruct (convert_persists_processing alice_req "alice" "score_alice_1000"
              (VScore (new_score "score_alice_1000" "alice" png
                         "alice/1000.png" 1001
                         (Some "https://signed/alice/1000.png")))
              (strings_at 90) 2000 2001 w_score)
    as (_ & _ & c & H1 & H2 & _ & _ & _ & _ & _ & _ & H3).
  - vm_compute; reflexivity.
  - vm_compute; reflexivity.
  - reflexivity.
  - unfold calm. vm_compute. constructor.
  - exists c. split_and!; [exact H1 | exact H2 | exact (H3 90 eq_refl)].
Defined.

(** C8, as stated, fails: a tempo of 500 is stored as it is, outside the
    range 40-240. *)
Lemma convert_stores_tempo_out_of_range :
  ∃ c, kv (convert alice_req "score_alice_1000" (Some (strings_at 500))
             2000 2001 w_score).2 !! "conversion_alice_2000"
         = Some (VConversion c)
       ∧ c_tempo c = 500 ∧ ¬ (40 ≤ c_tempo c ≤ 240).
Proof.
  eexists. split; [vm_compute; reflexivity|].
  split; [reflexivity|]. simpl. lia.
Qed.

(** ** Identifiers handed out by the handlers *)

Lemma upload_success_inv req file ts now w sid url md :
  (upload req file ts now w).1 = RUpload sid url md →
  ∃ uid, (verifyAuth req w).1 = Some (inl uid)
         ∧ sid = scoreId_at uid ts ∧ s_id md = sid ∧ s_userId md = uid.
Proof.
  destruct (upload req file ts now w) as [r w'] eqn:Hrun. simpl.
  intros ->.
  unfold upload, try_catch in Hrun. unfold_M.
  rewrite verifyAuth_eq in Hrun.
  destruct (verifyAuth req w).1 as [[uid|err]|] eqn:Hauth;
    [|discriminate..].
  destruct file as [file|]; [|discriminate].
  destruct (includes allowedTypes (f_type file)); [|discriminate].
  exists uid. split; [done|].
  unfold storage_upload, storage_createSignedUrl, blob_call, get_index,
    kv_set, kv_get, kv_call in Hrun.
  unfold_M.
  destruct w as [m sess faults tape tms].
  run_in Hrun ltac:(cbn -[new_score] in Hrun;
    rewrite ?(lookup_insert_ne m (scoreId_at uid ts) (userScoresKey uid))
      in Hrun by apply scoreId_not_index).
  all: try discriminate.
  all: by injection Hrun as <- <- <- <-.
Qed.

(** C3 (amended). The id generated by Upload or Convert is a function of
    the owning user and the creation instant, and an injective one: two
    Convert calls (or two Upload calls) get the same id exactly when they
    are made by the same user at the same instant, and a score id is never
    a conversion id. *)
Theorem entity_ids_namespaced_by_user_and_instant
    (req1 req2 : request) (u1 u2 : string) (ts1 ts2 : N) (w1 w2 : world) :
  (verifyAuth req1 w1).1 = Some (inl u1) →
  (verifyAuth req2 w2).1 = Some (inl u2) →
  (∀ sid1 sid2 b1 b2 n1 n2 id1 id2 st1 st2 m1 m2,
     (convert req1 sid1 b1 ts1 n1 w1).1 = RConvert id1 st1 m1 →
     (convert req2 sid2 b2 ts2 n2 w2).1 = RConvert id2 st2 m2 →
     (id1 = id2 ↔ u1 = u2 ∧ ts1 = ts2))
  ∧ (∀ f1 f2 n1 n2 id1 id2 url1 url2 md1 md2,
     (upload req1 f1 ts1 n1 w1).1 = RUpload id1 url1 md1 →
     (upload req2 f2 ts2 n2 w2).1 = RUpload id2 url2 md2 →
     (id1 = id2 ↔ u1 = u2 ∧ ts1 = ts2))
  ∧ (∀ f1 n1 id1 url1 md1 sid2 b2 n2 id2 st2 m2,
     (upload req1 f1 ts1 n1 w1).1 = RUpload id1 url1 md1 →
     (convert req2 sid2 b2 ts2 n2 w2).1 = RConvert id2 st2 m2 →
     id1 ≠ id2).
Proof.
  intros A1 A2. split_and!.
  - intros * R1 R2.
    apply convert_success_inv in R1 as (u1' & ? & A1' & _ & _ & -> & _).
    apply convert_success_inv in R2 as (u2' & ? & A2' & _ & _ & -> & _).
    assert (u1' = u1) as -> by congruence.
    assert (u2' = u2) as -> by congruence.
    split; [apply conversionId_at_inj | by intros [-> ->]].
  - intros * R1 R2.
    apply upload_success_inv in R1 as (u1' & A1' & -> & _).
    apply upload_success_inv in R2 as (u2' & A2' & -> & _).
    assert (u1' = u1) as -> by congruence.
    assert (u2' = u2) as -> by congruence.
    split; [apply scoreId_at_inj | by intros [-> ->]].
  - intros * R1 R2.
    apply upload_success_inv in R1 as (u1' & A1' & -> & _).
    apply convert_success_inv in R2 as (u2' & ? & A2' & _ & _ & -> & _).
    apply scoreId_not_conversionId.
Qed.

Lemma entity_ids_namespaced_by_user_and_instant_witness :
  conversionId_at "alice" 2000 ≠ conversionId_at "alice" 2001.
Proof.
  destruct (entity_ids_namespaced_by_user_and_instant
              alice_req alice_req "alice" "alice" 2000 2001 w_score w_score)
    as (H & _).
  - vm_compute; reflexivity.
  - vm_compute; reflexivity.
  - intros E.
    apply (H "score_alice_1000" "score_alice_1000"
             (Some no_config) (Some no_config) 2000%N 2001%N
             _ _ processing processing convert_started convert_started)
      in E as [_ E]; [discriminate| |]; vm_compute; reflexivity.
Defined.

(** C3, as stated, fails: two Convert calls by the same user on the same
    score that read the same instant both succeed and get the same id. *)
Lemma convert_twice_same_instant_same_id :
  let first := convert alice_req "score_alice_1000" (Some (strings_at 90))
                 2000 2000 w_score in
  let second := convert alice_req "score_alice_1000" (Some (strings_at 100))
                  2000 2001 first.2 in
  first.1 = RConvert "conversion_alice_2000" processing convert_started
  ∧ second.1 = RConvert "conversion_alice_2000" processing convert_started.
Proof. split; vm_compute; reflexivity. Qed.

(** ** The completion callback *)

(** A run of the [try] block that reaches its end has written the
    completed record and then the index. *)
Lemma completion_try_success t now w :
  (completion_try t now w).1 = Some tt →
  ∃ audioUrl midiUrl ids,
    kv (completion_try t now w).2
      = <[userConversionsKey (tm_userId t) :=
            VIndex (ids ++ [tm_conversionId t])]>
          (<[tm_conversionId t :=
               VConversion (updatedConversion (tm_conversionData t)
                              audioUrl midiUrl
                              (audioPath_of t) (midiPath_of t) now)]>
             (kv w)).
Proof.
  destruct (completion_try t now w) as [r w'] eqn:Hrun. simpl. intros ->.
  unfold completion_try, storage_createSignedUrl, blob_call, get_index,
    kv_set, kv_get, kv_call in Hrun.
  unfold_M.
  destruct w as [m sess faults tape tms].
  run_in Hrun ltac:(cbn -[updatedConversion] in Hrun).
  all: try discriminate.
  all: injection Hrun as <-; cbn -[updatedConversion].
  all: match goal with
       | |- context [updatedConversion _ ?a ?b _ _ _] => exists a, b
       end.
  all: match goal with
       | |- context [VIndex (?l ++ _)] => by exists l
       | _ => by exists []
       end.
Qed.

(** A run of the [try] block that raises has written nothing, or the
    completed record only. *)
Lemma completion_try_failure t now w :
  (completion_try t now w).1 = None →
  kv (completion_try t now w).2 = kv w
  ∨ ∃ audioUrl midiUrl,
      kv (completion_try t now w).2
        = <[tm_conversionId t :=
              VConversion (updatedConversion (tm_conversionData t)
                             audioUrl midiUrl
                             (audioPath_of t) (midiPath_of t) now)]> (kv w).
Proof.
  destruct (completion_try t now w) as [r w'] eqn:Hrun. simpl. intros ->.
  unfold completion_try, storage_createSignedUrl, blob_call, get_index,
    kv_set, kv_get, kv_call in Hrun.
  unfold_M.
  destruct w as [m sess faults tape tms].
  run_in Hrun ltac:(cbn -[updatedConversion] in Hrun).
  all: try discriminate.
  all: injection Hrun as <-; cbn -[updatedConversion].
  all: first [ by left
             | right;
               match goal with
               | |- context [updatedConversion _ ?a ?b _ _ _] =>
                   by exists a, b
               end ].
Qed.

(** The [catch] block writes the failed record, unless the store raises
    again. *)
Lemma completion_catch_kv t w :
  kv (completion_catch t w).2 = kv w
  ∨ kv (completion_catch t w).2
      = <[tm_conversionId t :=
            VConversion (failedConversion (tm_conversionData t))]> (kv w).
Proof.
  unfold completion_catch, kv_set, kv_call.
  destruct w as [m sess faults tape tms].
  destruct faults as [|[] ?]; cbn -[failedConversion]; auto.
Qed.

Lemma completion_unfold t now w :
  completion t now w =
    match (completion_try t now w).1 with
    | Some _ => (completion_try t now w).2
    | None => (completion_catch t (completion_try t now w).2).2
    end.
Proof. unfold completion. by destruct (completion_try t now w) as [[]]. Qed.

(** C9. The record written by a successful completion carries over the
    id, scoreId, userId, instruments, satbConfig, tempo and createdAt that
    the Convert call stored; it sets the status, the two paths, the two
    URLs and completedAt. *)
Theorem completion_preserves_creation_fields
    (req : request) (scoreId : string) (body : option ConvertBody)
    (ts createdAt : N) (w : world) (cid : string) (st : Status)
    (msg : string) :
  (convert req scoreId body ts createdAt w).1 = RConvert cid st msg →
  ∃ cd t,
    kv (convert req scoreId body ts createdAt w).2 !! cid
      = Some (VConversion cd)
    ∧ timers (convert req scoreId body ts createdAt w).2
      = (timers w ++ [t])%list
    ∧ ∀ w2 now,
        (completion_try t now w2).1 = Some tt →
        ∃ c, kv (completion t now w2) !! cid = Some (VConversion c)
          ∧ c_status c = completed
          ∧ c_audioPath c = Some (audioPath_of t)
          ∧ c_midiPath c = Some (midiPath_of t)
          ∧ c_completedAt c = Some now
          ∧ c_id c = c_id cd
          ∧ c_scoreId c = c_scoreId cd
          ∧ c_userId c = c_userId cd
          ∧ c_instruments c = c_instruments cd
          ∧ c_satbConfig c = c_satbConfig cd
          ∧ c_tempo c = c_tempo cd
          ∧ c_createdAt c = c_createdAt cd
          ∧ c_error c = c_error cd.
Proof.
  intros R.
  destruct (convert_success_inv _ _ _ _ _ _ _ _ _ R)
    as (uid & b & _ & _ & _ & -> & _ & Hkv & Htm).
  eexists _, _. split_and!.
  - rewrite Hkv. apply lookup_insert_eq.
  - exact Htm.
  - intros w2 now Hok.
    rewrite completion_unfold, Hok.
    destruct (completion_try_success _ _ _ Hok) as (a & m' & ids & ->).
    eexists. split.
    + rewrite lookup_insert_ne by (apply not_eq_sym, conversionId_not_index).
      apply lookup_insert_eq.
    + by split_and!.
Qed.

Lemma completion_preserves_creation_fields_witness :
  ∃ c, kv (completion
             (timer_of "alice" "score_alice_1000" (strings_at 90) 2000 2001)
             4000 (with_blob_tape signing w_processing))
         !! "conversion_alice_2000" = Some (VConversion c)
       ∧ c_status c = completed
       ∧ c_tempo c = 90 ∧ c_createdAt c = 2001%N.
Proof.
  destruct (completion_preserves_creation_fields
              alice_req "score_alice_1000" (Some (strings_at 90))
              2000 2001 w_score "conversion_alice_2000" processing
              convert_started)
    as (cd & t & Hcd & Ht & H).
  - vm_compute; reflexivity.
  - assert (t = timer_of "alice" "score_alice_1000" (strings_at 90)
                         2000 2001) as ->.
    { assert (E : timers w_processing
                  = [timer_of "alice" "score_alice_1000" (strings_at 90)
                              2000 2001]) by (vm_compute; reflexivity).
      unfold w_processing in E. rewrite Ht in E.
      change (timers w_score) with (@nil timer) in E. simpl in E.
      by injection E. }
    assert (cd = new_conversion "conversion_alice_2000" "score_alice_1000"
                   "alice" (strings_at 90) 2001) as ->.
    { assert (E : kv w_processing !! "conversion_alice_2000"
                  = Some (VConversion
                            (new_conversion "conversion_alice_2000"
                               "score_alice_1000" "alice" (strings_at 90)
                               2001))) by (vm_compute; reflexivity).
      unfold w_processing in E. rewrite Hcd in E. by injection E. }
    destruct (H (with_blob_tape signing w_processing) 4000%N)
      as (c & Hc & Hs & _ & _ & _ & _ & _ & _ & _ & _ & Htempo & Hcreated & _).
    + vm_compute; reflexivity.
    + exists c. split_and!; [exact Hc | exact Hs | exact Htempo
                            | exact Hcreated].
Defined.

(** With a store and a blob store that answer, the [try] block reaches its
    end, whatever the store holds under the conversion id. *)
Lemma completion_try_runs t now w :
  calm 3 w →
  signing_answers (blob_tape w) →
  tm_conversionId t ≠ userConversionsKey (tm_userId t) →
  is_Some (as_index (kv w !! userConversionsKey (tm_userId t))) →
  (completion_try t now w).1 = Some tt.
Proof.
  intros Hcalm Hsign Hne [ids Hidx].
  unfold completion_try, storage_createSignedUrl, blob_call, get_index,
    kv_set, kv_get, kv_call.
  unfold_M.
  destruct w as [m sess faults tape tms]. simpl in Hsign, Hidx.
  destruct tape as [|[] [|[] tape]]; try done.
  all: destruct faults as [|[] [|[] [|[] faults]]]; try calm_false Hcalm.
  all: cbn -[updatedConversion].
  all: rewrite ?lookup_insert_ne by done.
  all: by rewrite Hidx.
Qed.

(** C2 (amended). The completion step does not load the existing record.
    Whatever the store holds under the conversion id, the step either
    leaves that entry as it is (the store raised) or stores a record with
    status completed or failed, never processing; and when the stores
    answer, it does write the completed record, also when the record is
    missing or already terminal. *)
Theorem completion_writes_terminal_unconditionally
    (uid scoreId : string) (b : ConvertBody) (ts createdAt now : N)
    (w : world) :
  let t := timer_of uid scoreId b ts createdAt in
  let cid := conversionId_at uid ts in
  let w' := completion t now w in
  (kv w' !! cid = kv w !! cid
   ∨ ∃ c, kv w' !! cid = Some (VConversion c)
          ∧ (c_status c = completed ∨ c_status c = failed)
          ∧ c_id c = cid)
  ∧ (calm 3 w →
     signing_answers (blob_tape w) →
     is_Some (as_index (kv w !! userConversionsKey uid)) →
     ∃ c, kv w' !! cid = Some (VConversion c)
          ∧ c_status c = completed
          ∧ c_completedAt c = Some now).
Proof.
  intros t cid w'. subst w'. rewrite completion_unfold.
  assert (Hne : cid ≠ userConversionsKey uid)
    by apply conversionId_not_index.
  split.
  - destruct (completion_try t now w).1 as [[]|] eqn:Hrun.
    + destruct (completion_try_success _ _ _ Hrun) as (a & m' & ids & ->).
      right. eexists. split.
      { rewrite lookup_insert_ne by done. apply lookup_insert_eq. }
      split; [by left | done].
    + destruct (completion_catch_kv t (completion_try t now w).2) as [->| ->].
      * destruct (completion_try_failure _ _ _ Hrun) as [->|(a & m' & ->)].
        { by left. }
        right. eexists. split; [apply lookup_insert_eq|].
        split; [by left | done].
      * right. eexists. split; [apply lookup_insert_eq|].
        split; [by right | done].
  - intros Hcalm Hsign Hidx.
    assert (Hrun : (completion_try t now w).1 = Some tt)
      by (by apply completion_try_runs).
    rewrite Hrun.
    destruct (completion_try_success _ _ _ Hrun) as (a & m' & ids & ->).
    eexists. split.
    { rewrite lookup_insert_ne by done. apply lookup_insert_eq. }
    by split.
Qed.

Lemma completion_writes_terminal_unconditionally_witness :
  ∃ c, kv (completion
             (timer_of "alice" "score_alice_1000" (strings_at 90) 2000 2001)
             4000 w0) !! conversionId_at "alice" 2000
         = Some (VConversion c)
       ∧ c_status c = completed.
Proof.
  destruct (completion_writes_terminal_unconditionally
              "alice" "score_alice_1000" (strings_at 90) 2000 2001 4000 w0)
    as [_ H].
  destruct H as (c & Hc & Hs & _).
  - unfold calm. simpl. constructor.
  - exact I.
  - by eexists.
  - exists c. split; [exact Hc | exact Hs].
Defined.

(** C2, as stated, fails: the second callback finds the record completed
    (tempo 90, completed at 4000) and overwrites it (tempo 100, completed
    at 4001). *)
Lemma completion_overwrites_terminal_record :
  ∃ c1 c2,
    kv w_first_done !! "conversion_alice_2000" = Some (VConversion c1)
    ∧ c_status c1 = completed
    ∧ c_tempo c1 = 90 ∧ c_completedAt c1 = Some 4000%N
    ∧ kv (fire_timer 4001 (with_blob_tape signing w_first_done))
        !! "conversion_alice_2000" = Some (VConversion c2)
    ∧ c_tempo c2 = 100 ∧ c_completedAt c2 = Some 4001%N
    ∧ c1 ≠ c2.
Proof.
  eexists _, _.
  split; [vm_compute; reflexivity|].
  split; [reflexivity|]. split; [reflexivity|]. split; [reflexivity|].
  split; [vm_compute; reflexivity|].
  split; [reflexivity|]. split; [reflexivity|]. discriminate.
Qed.

(** When the [try] block raises and the [catch] write goes through, the
    stored record is the creation record marked failed: it has no
    [completedAt], and the conversion index is not touched. *)
Lemma completion_failure_record uid scoreId b ts createdAt now w :
  let t := timer_of uid scoreId b ts createdAt in
  let cid := conversionId_at uid ts in
  let w' := completion t now w in
  (completion_try t now w).1 = None →
  kv w' !! cid ≠ kv (completion_try t now w).2 !! cid →
  (∃ c, kv w' !! cid = Some (VConversion c)
        ∧ c_status c = failed
        ∧ c_error c = Some "Conversion processing failed"
        ∧ c_completedAt c = None)
  ∧ kv w' !! userConversionsKey uid = kv w !! userConversionsKey uid.
Proof.
  intros t cid w' Hrun Hwritten. subst w'.
  rewrite completion_unfold, Hrun in *.
  assert (Hne : cid ≠ userConversionsKey uid)
    by apply conversionId_not_index.
  destruct (completion_catch_kv t (completion_try t now w).2) as [E|E];
    rewrite E in *; [done|].
  split.
  - eexists. split; [apply lookup_insert_eq | by split_and!].
  - rewrite lookup_insert_ne by done.
    destruct (completion_try_failure _ _ _ Hrun) as [->|(a & m' & ->)];
      [done|].
    by rewrite lookup_insert_ne.
Qed.

(** C6, at a failing input. The callback of alice's conversion runs at
    instant 4000 and the blob store raises: the stored record is failed
    and carries the message, but it has no [completedAt] and the id is not
    appended to alice's conversion index. *)
Theorem completion_failure_sets_no_completedAt_and_no_index :
  let w' := fire_timer 4000 w_synthesis_fails in
  (∃ c, kv w' !! "conversion_alice_2000" = Some (VConversion c)
        ∧ c_status c = failed
        ∧ c_error c = Some "Conversion processing failed"
        ∧ c_completedAt c = None)
  ∧ kv w' !! "user_conversions_alice" = None
  ∧ (library alice_req w').1
      = RLibrary
          [{| e_score :=
                VScore (new_score "score_alice_1000" "alice" png
                          "alice/1000.png" 1001
                          (Some "https://signed/alice/1000.png"));
              e_conversions := [] |}].
Proof.
  split; [eexists; split; [vm_compute; reflexivity | by split_and!]|].
  split; vm_compute; reflexivity.
Qed.

(** C1, at a failing input. Alice deletes her score while its conversion
    is still processing.  The delete succeeds, yet the conversion can
    still be read by id, and once its callback has run the conversion is
    in alice's conversion index. *)
Theorem delete_score_misses_processing_conversion :
  let d := deleteScore alice_req "score_alice_1000" w_processing in
  let w' := fire_timer 4000 (with_blob_tape signing d.2) in
  d.1 = RMessage "Score and all conversions deleted successfully"
  ∧ kv d.2 !! "score_alice_1000" = None
  ∧ (∃ c, (getConversion alice_req "conversion_alice_2000" d.2).1
            = RJson (VConversion c)
          ∧ c_scoreId c = "score_alice_1000"
          ∧ c_status c = processing)
  ∧ kv w' !! "user_conversions_alice"
      = Some (VIndex ["conversion_alice_2000"])
  ∧ (∃ c, (getConversion alice_req "conversion_alice_2000" w').1
            = RJson (VConversion c)
          ∧ c_scoreId c = "score_alice_1000"
          ∧ c_status c = completed).
Proof.
  split; [vm_compute; reflexivity|].
  split; [vm_compute; reflexivity|].
  split; [eexists; split; [vm_compute; reflexivity | by split]|].
  split; [vm_compute; reflexivity|].
  eexists; split; [vm_compute; reflexivity | by split].
Qed.

(** ** Library listing *)

(** Grouping, read back at one key, is a filter. *)
Lemma foldl_group_step_lookup (l : list value) (acc : gmap string (list value))
    (k : string) :
  default [] (foldl group_step acc l !! k)
  = (default [] (acc !! k)
     ++ filter (λ c, prop_key (scoreId_of c) = k) l)%list.
Proof.
  revert acc. induction l as [|c l IH]; intros acc; simpl.
  - by rewrite app_nil_r.
  - rewrite IH. unfold group_step.
    rewrite filter_cons.
    destruct (decide (prop_key (scoreId_of c) = k)) as [->|Hne].
    + rewrite lookup_insert_eq. simpl. by rewrite <- app_assoc.
    + by rewrite lookup_insert_ne.
Qed.

Lemma conversionsByScore_lookup (l : list value) (k : string) :
  default [] (conversionsByScore l !! k)
  = filter (λ c, prop_key (scoreId_of c) = k) l.
Proof.
  unfold conversionsByScore. by rewrite foldl_group_step_lookup, lookup_empty.
Qed.

(** Insertion keeps the elements. *)
Lemma sort_insert_perm {A} (cmp : A → A → Z) x (l : list A) :
  sort_insert cmp x l ≡ₚ x :: l.
Proof.
  induction l as [|y l IH]; simpl; [done|].
  case_match; [done|]. rewrite IH. apply Permutation_swap.
Qed.

Lemma js_sort_perm {A} (cmp : A → A → Z) (l : list A) :
  js_sort cmp l ≡ₚ l.
Proof.
  induction l as [|x l IH]; simpl; [done|].
  unfold js_sort in *. simpl. by rewrite sort_insert_perm, IH.
Qed.

Lemma not_older_total a b : ¬ not_older a b → not_older b a.
Proof.
  unfold not_older, newest_first.
  destruct (getTime a), (getTime b); lia.
Qed.

Lemma sort_insert_sorted x l :
  Sorted not_older l → Sorted not_older (sort_insert newest_first x l).
Proof.
  induction 1 as [|y l Hl IH Hhd]; simpl.
  - by repeat constructor.
  - destruct (Z.leb_spec (newest_first x y) 0) as [Hle|Hgt].
    + constructor; [by constructor|]. by constructor.
    + constructor; [done|].
      assert (not_older y x) by (apply not_older_total; unfold not_older; lia).
      destruct Hhd as [|z l Hyz]; simpl; [by constructor|].
      case_match; by constructor.
Qed.

Lemma js_sort_sorted l : Sorted not_older (js_sort newest_first l).
Proof.
  induction l as [|x l IH]; [constructor|].
  change (js_sort newest_first (x :: l))
    with (sort_insert newest_first x (js_sort newest_first l)).
  by apply sort_insert_sorted.
Qed.

Lemma newer_or_same_dated a b :
  dated a → dated b → not_older a b → newer_or_same a b.
Proof.
  unfold dated, not_older, newest_first, newer_or_same.
  intros [ta ->] [tb ->] H. exists ta, tb. split_and!; [done..|lia].
Qed.

Lemma newer_or_same_trans a b c :
  newer_or_same a b → newer_or_same b c → newer_or_same a c.
Proof.
  intros (ta & tb & Ha & Hb & ?) (tb' & tc & Hb' & Hc & ?).
  exists ta, tc. split_and!; [done..|].
  assert (tb = tb') by congruence. lia.
Qed.

Lemma sort_insert_strongly_sorted x l :
  dated x → Forall dated l →
  StronglySorted newer_or_same l →
  StronglySorted newer_or_same (sort_insert newest_first x l).
Proof.
  intros Hx Hl Hs. induction Hs as [|y l Hs IH Hy]; simpl.
  - by repeat constructor.
  - apply Forall_cons in Hl as [Hdy Hl].
    destruct (Z.leb_spec (newest_first x y) 0) as [Hle|Hgt].
    + assert (Hxy : newer_or_same x y) by by apply newer_or_same_dated.
      constructor; [by constructor|].
      constructor; [done|].
      eapply Forall_impl; [exact Hy|]. intros z Hz.
      by eapply newer_or_same_trans.
    + constructor; [by apply IH|].
      rewrite sort_insert_perm. constructor; [|done].
      apply newer_or_same_dated; [done..|].
      apply not_older_total. unfold not_older. lia.
Qed.

Lemma js_sort_strongly_sorted l :
  Forall dated l → StronglySorted newer_or_same (js_sort newest_first l).
Proof.
  induction 1 as [|x l Hx Hl IH]; [constructor|].
  change (js_sort newest_first (x :: l))
    with (sort_insert newest_first x (js_sort newest_first l)).
  apply sort_insert_strongly_sorted; [done| |done].
  by rewrite js_sort_perm.
Qed.

Lemma with_conversions_attach conversions score :
  with_conversions (conversionsByScore conversions) score
  = attach conversions score.
Proof.
  unfold with_conversions, attach. by rewrite conversionsByScore_lookup.
Qed.

(** The listing, for an authenticated caller and a store that answers. *)
Lemma library_run req uid w scoreIds conversionIds :
  (verifyAuth req w).1 = Some (inl uid) →
  calm 4 w →
  as_index (kv w !! userScoresKey uid) = Some scoreIds →
  as_index (kv w !! userConversionsKey uid) = Some conversionIds →
  (library req w).1
    = RLibrary (js_sort newest_first
                  (attach (fetched (kv w) conversionIds)
                     <$> fetched (kv w) scoreIds))
  ∧ kv (library req w).2 = kv w.
Proof.
  intros Hauth Hcalm Hs Hc.
  unfold library, try_catch. unfold_M.
  rewrite (verifyAuth_run req w w _ Hauth eq_refl).
  unfold get_index, kv_mget, kv_get, kv_call. unfold_M.
  destruct w as [m sess faults tape tms]. simpl in Hs, Hc.
  destruct faults as [|[] [|[] [|[] [|[] faults]]]]; try calm_false Hcalm.
  all: cbn -[js_sort conversionsByScore]; rewrite Hs.
  all: cbn -[js_sort conversionsByScore]; rewrite Hc.
  all: cbn -[js_sort conversionsByScore].
  all: split; [|done].
  all: do 2 f_equal; apply list_fmap_ext; intros _ score _.
  all: apply with_conversions_attach.
Qed.

(** C7. For an authenticated user and a store that answers, Library
    Listing returns exactly the documents found under the ids of the
    user's score index, those whose record is missing being omitted, each
    with the conversions found under the user's conversion index whose
    scoreId is its id; the list is ordered by the comparator, newest
    upload first when every entry is a dated score; a user without scores
    gets the empty list.  The store is not changed. *)
Theorem library_lists_indexed_scores
    (req : request) (uid : string) (w : world)
    (scoreIds conversionIds : list string) :
  (verifyAuth req w).1 = Some (inl uid) →
  calm 4 w →
  as_index (kv w !! userScoresKey uid) = Some scoreIds →
  as_index (kv w !! userConversionsKey uid) = Some conversionIds →
  let scores := fetched (kv w) scoreIds in
  let conversions := fetched (kv w) conversionIds in
  ∃ L, (library req w).1 = RLibrary L
       ∧ kv (library req w).2 = kv w
       ∧ L ≡ₚ attach conversions <$> scores
       ∧ (∀ e, e ∈ L ↔
                ∃ k score, k ∈ scoreIds ∧ kv w !! k = Some score
                           ∧ e = attach conversions score)
       ∧ Sorted not_older L
       ∧ (Forall (λ v, is_Some (uploadedAt_of v)) scores →
          StronglySorted newer_or_same L)
       ∧ (scoreIds = [] → L = []).
Proof.
  intros Hauth Hcalm Hs Hc scores conversions.
  destruct (library_run req uid w scoreIds conversionIds Hauth Hcalm Hs Hc)
    as [-> Hkv].
  eexists. split; [reflexivity|]. split; [exact Hkv|].
  split_and!.
  - apply js_sort_perm.
  - intros e. rewrite js_sort_perm, list_elem_of_fmap.
    split.
    + intros (score & -> & Hin).
      apply list_elem_of_omap in Hin as (k & Hk & Hlook).
      by exists k, score.
    + intros (k & score & Hk & Hlook & ->).
      exists score. split; [done|].
      apply list_elem_of_omap. by exists k.
  - apply js_sort_sorted.
  - intros Hdated. apply js_sort_strongly_sorted.
    apply Forall_fmap. eapply Forall_impl; [exact Hdated|]. done.
  - intros ->. reflexivity.
Qed.

Lemma library_lists_indexed_scores_witness :
  ∃ L, (library alice_req w_two_scores).1 = RLibrary L
       ∧ StronglySorted newer_or_same L
       ∧ List.length L = 2%nat.
Proof.
  destruct (library_lists_indexed_scores alice_req "alice" w_two_scores
              ["score_alice_1000"; "score_alice_5000"]
              ["conversion_alice_2000"])
    as (L & HL & _ & Hperm & _ & _ & Hsorted & _).
  - vm_compute; reflexivity.
  - unfold calm. vm_compute. constructor.
  - vm_compute; reflexivity.
  - vm_compute; reflexivity.
  - exists L. split; [exact HL|]. split.
    + apply Hsorted. vm_compute. repeat constructor; by eexists.
    + rewrite Hperm, length_fmap. vm_compute. reflexivity.
Defined.

(** The listing of alice's two scores: the later upload comes first, and
    the completed conversion is attached to the score it refers to. *)
Example library_newest_first :
  (λ r, match r with
        | RLibrary L =>
            (λ e, (prop_key (id_of (e_score e)),
                   (λ c, prop_key (id_of c)) <$> e_conversions e)) <$> L
        | _ => []
        end) (library alice_req w_two_scores).1
  = [("score_alice_5000", []);
     ("score_alice_1000", ["conversion_alice_2000"])].
Proof. vm_compute; reflexivity. Qed.

(** A user without scores gets the empty list. *)
Example library_of_new_user :
  (library bob_req w_two_scores).1 = RLibrary [].
Proof. vm_compute; reflexivity. Qed.

(** ** Delete Score *)

Lemma without_conversions_lookup l m k :
  without_conversions m l !! k
  = if decide (k ∈ c_id <$> l) then None else m !! k.
Proof.
  revert m. induction l as [|c l IH]; intros m; [done|].
  change (without_conversions m (c :: l))
    with (without_conversions (delete (c_id c) m) l).
  rewrite IH, fmap_cons.
  destruct (decide (k = c_id c)) as [->|Hne].
  - rewrite lookup_delete_eq, (decide_True (P := _ ∈ _ :: _))
      by (apply elem_of_cons; auto).
    by case_decide.
  - rewrite lookup_delete_ne by done.
    destruct (decide (k ∈ c_id <$> l)).
    + by rewrite decide_True by (apply elem_of_cons; auto).
    + by rewrite decide_False by (rewrite elem_of_cons; tauto).
Qed.

(** Removing a blob, or not, leaves the metadata store alone. *)
Lemma remove_if_set_kv bucket path w :
  kv (remove_if_set bucket path w).2 = kv w
  ∧ sessions (remove_if_set bucket path w).2 = sessions w
  ∧ timers (remove_if_set bucket path w).2 = timers w.
Proof.
  unfold remove_if_set. destruct (truthy path); [|done].
  unfold storage_remove, blob_call. unfold_M.
  destruct w as [m sess faults tape tms].
  by destruct tape as [|[] tape].
Qed.

Lemma kv_del_run k w :
  (kv_del k w).1 = Some tt →
  kv (kv_del k w).2 = delete k (kv w)
  ∧ sessions (kv_del k w).2 = sessions w
  ∧ timers (kv_del k w).2 = timers w.
Proof.
  unfold kv_del, kv_call.
  destruct w as [m sess faults tape tms].
  by destruct faults as [|[] faults].
Qed.

(** The loop, when it runs to its end, has deleted each record. *)
Lemma delete_conversions_run l w :
  (delete_conversions l w).1 = Some tt →
  kv (delete_conversions l w).2 = without_conversions (kv w) l
  ∧ sessions (delete_conversions l w).2 = sessions w
  ∧ timers (delete_conversions l w).2 = timers w.
Proof.
  revert w. induction l as [|c l IH]; intros w; [done|].
  cbn [delete_conversions]. unfold mbind, M_bind.
  pose proof (remove_if_set_kv AUDIO_BUCKET (c_audioPath c) w) as H1.
  destruct (remove_if_set AUDIO_BUCKET (c_audioPath c) w) as [[[]|] w1];
    [|done].
  pose proof (remove_if_set_kv MIDI_BUCKET (c_midiPath c) w1) as H2.
  destruct (remove_if_set MIDI_BUCKET (c_midiPath c) w1) as [[[]|] w2];
    [|done].
  pose proof (kv_del_run (c_id c) w2) as H3.
  destruct (kv_del (c_id c) w2) as [[[]|] w3]; [|done].
  intros Hrest. destruct (IH w3 Hrest) as (-> & -> & ->).
  simpl in H1, H2, H3.
  destruct H1 as (<- & <- & <-), H2 as (<- & <- & <-),
    (H3 eq_refl) as (-> & -> & ->).
  done.
Qed.

(** A delete that answers with its confirmation has run every step. *)
Lemma deleteScore_success_inv req scoreId w msg :
  (deleteScore req scoreId w).1 = RMessage msg →
  ∃ uid conversionIds scoreIds,
    (verifyAuth req w).1 = Some (inl uid)
    ∧ denied uid (kv w !! scoreId) = false
    ∧ as_index (kv w !! userConversionsKey uid) = Some conversionIds
    ∧ as_index (after_cascade (kv w) uid scoreId conversionIds
                  !! userScoresKey uid) = Some scoreIds
    ∧ kv (deleteScore req scoreId w).2
        = <[userScoresKey uid :=
              VIndex (filter (λ id, id ≠ scoreId) scoreIds)]>
            (after_cascade (kv w) uid scoreId conversionIds)
    ∧ sessions (deleteScore req scoreId w).2 = sessions w.
Proof.
  destruct (deleteScore req scoreId w) as [r w'] eqn:Hrun. simpl.
  intros ->.
  unfold deleteScore, try_catch in Hrun. unfold_M.
  rewrite verifyAuth_eq in Hrun.
  destruct (verifyAuth req w).1 as [[uid|err]|] eqn:Hauth;
    [|discriminate..].
  exists uid.
  unfold storage_remove, blob_call, get_index, kv_mget, kv_set, kv_del,
    kv_get, kv_call in Hrun.
  unfold_M.
  destruct w as [m sess faults tape tms].
  destruct (denied uid (m !! scoreId)) eqn:Hd.
  { destruct faults as [|[] ?]; cbn in Hrun; rewrite ?Hd in Hrun;
      discriminate. }
  run_in Hrun ltac:(cbn -[scoreConversions_of delete_conversions] in Hrun;
                    rewrite ?Hd in Hrun;
                    cbn -[scoreConversions_of delete_conversions] in Hrun).
  all: try discriminate.
  all: match type of Hrun with
       | context [delete_conversions ?l ?w0] =>
           pose proof (delete_conversions_run l w0) as Hloop;
           destruct (delete_conversions l w0)
             as [[[]|] [m1 sess1 faults1 tape1 tms1]];
           [|discriminate]
       end.
  all: destruct (Hloop eq_refl) as (Hm1 & Hs1 & _); clear Hloop;
    simpl in Hm1, Hs1; subst m1 sess1.
  all: run_in Hrun ltac:(cbn -[scoreConversions_of] in Hrun).
  all: try discriminate.
  all: injection Hrun as <- <-; cbn -[scoreConversions_of].
  all: unfold after_cascade, fetched.
  all: match goal with
       | H : _ !! userConversionsKey _ = Some (VIndex ?ids) |- _ =>
           exists ids
       | H : _ !! userConversionsKey _ = None |- _ => exists []
       end.
  all: match goal with
       | H : _ !! userScoresKey _ = Some (VIndex ?ids) |- _ => exists ids
       | H : _ !! userScoresKey _ = None |- _ => exists []
       end.
  all: split_and!; try done.
  all: try match goal with
           | H : _ !! userConversionsKey _ = _ |- _ => by rewrite H
           end.
  all: match goal with
       | H : _ !! userScoresKey _ = _ |- _ => exact (f_equal as_index H)
       end.
Qed.

Lemma index_keys_differ uid uid' :
  userConversionsKey uid ≠ userScoresKey uid'.
Proof. discriminate. Qed.

(** X12. What Delete Score does achieve: after a delete that answered
    with its confirmation, a conversion of the score that is listed in
    the caller's conversion index is gone from the store and from the
    index, a Status Read of it is answered 404, and the score record is
    gone too. *)
Lemma deleteScore_removes_indexed_conversions
    req uid scoreId w msg conversionIds id c :
  (deleteScore req scoreId w).1 = RMessage msg →
  (verifyAuth req w).1 = Some (inl uid) →
  as_index (kv w !! userConversionsKey uid) = Some conversionIds →
  id ∈ conversionIds →
  kv w !! id = Some (VConversion c) →
  c_scoreId c = scoreId → c_id c = id →
  id ≠ userScoresKey uid → scoreId ≠ userScoresKey uid →
  let w' := (deleteScore req scoreId w).2 in
  kv w' !! id = None
  ∧ kv w' !! scoreId = None
  ∧ (∃ idx, kv w' !! userConversionsKey uid = Some (VIndex idx)
            ∧ id ∉ idx)
  ∧ (calm 1 w' →
     (getConversion req id w').1
       = RError 404 "Conversion not found or access denied").
Proof.
  intros R Hauth Hidx Hin Hc Hsc Hid Hne1 Hne2 w'.
  destruct (deleteScore_success_inv _ _ _ _ R)
    as (uid' & ids & sids & Hauth' & Hd & Hidx' & Hsidx & Hkv & Hsess).
  assert (uid' = uid) as -> by congruence.
  assert (ids = conversionIds) as -> by congruence.
  set (sc := scoreConversions_of scoreId (fetched (kv w) conversionIds)).
  assert (Hmem : id ∈ c_id <$> sc).
  { apply list_elem_of_fmap. exists c. split; [done|].
    unfold sc, scoreConversions_of. apply list_elem_of_omap.
    exists (VConversion c). split; [|done].
    apply list_elem_of_filter. split; [by simpl; rewrite Hsc|].
    unfold fetched. apply list_elem_of_omap. by exists id. }
  assert (Hne3 : id ≠ userConversionsKey uid).
  { intros ->. rewrite Hc in Hidx. discriminate. }
  assert (Hne4 : scoreId ≠ userConversionsKey uid).
  { intros ->. unfold denied in Hd.
    destruct (kv w !! userConversionsKey uid) as [[]|]; discriminate. }
  assert (K1 : kv w' !! id = None).
  { subst w'. rewrite Hkv, lookup_insert_ne by done.
    unfold after_cascade. fold sc.
    destruct (decide (id = scoreId)) as [->|?];
      [by rewrite lookup_delete_eq|].
    rewrite lookup_delete_ne, lookup_insert_ne by done.
    rewrite without_conversions_lookup. by rewrite decide_True. }
  split_and!.
  - exact K1.
  - subst w'. rewrite Hkv, lookup_insert_ne by done.
    unfold after_cascade. by rewrite lookup_delete_eq.
  - eexists. split.
    + subst w'.
      rewrite Hkv, lookup_insert_ne by apply not_eq_sym, index_keys_differ.
      unfold after_cascade. fold sc.
      rewrite lookup_delete_ne by done. apply lookup_insert_eq.
    + rewrite list_elem_of_filter. tauto.
  - intros Hcalm.
    assert (A : (verifyAuth req w').1 = Some (inl uid)).
    { rewrite <- Hauth. by apply verifyAuth_sessions. }
    rewrite (getConversion_denied req uid id _ A) by (by rewrite K1).
    unfold after_lookup. simpl.
    rewrite bool_decide_eq_false_2; [done|].
    unfold calm in Hcalm. destruct (kv_faults w') as [|b t]; [done|].
    simpl in Hcalm. apply Forall_cons in Hcalm as [-> _]. done.
Qed.

(** Alice deletes her score after its conversion has completed: the
    conversion is gone, from the store and from her conversion index. *)
Example delete_score_removes_completed_conversion :
  let d := deleteScore alice_req "score_alice_1000" w_completed in
  d.1 = RMessage "Score and all conversions deleted successfully"
  ∧ kv d.2 !! "conversion_alice_2000" = None
  ∧ kv d.2 !! "user_conversions_alice" = Some (VIndex [])
  ∧ kv d.2 !! "user_scores_alice" = Some (VIndex [])
  ∧ (getConversion alice_req "conversion_alice_2000" d.2).1
      = RError 404 "Conversion not found or access denied"
  ∧ (library alice_req d.2).1 = RLibrary [].
Proof. split_and!; vm_compute; reflexivity. Qed.

(** * Further properties of the handlers *)

(** ** Authentication *)


Lemma split_go_free sep cur s :
  free_of sep s → split_go sep cur s = [cur +:+ s].
Proof.
  revert cur. induction s as [|c r IH]; intros cur; simpl.
  - intros _. f_equal. induction cur as [|? ? IHc]; [done|].
    rewrite append_cons. by f_equal.
  - intros [Hc Hr]. rewrite decide_False by done. rewrite IH by done.
    f_equal. clear. induction cur as [|? ? IHc]; [done|].
    rewrite !append_cons. by f_equal.
Qed.

Lemma split_go_sep sep cur a b :
  free_of sep a →
  split_go sep cur (a +:+ String sep b) = (cur +:+ a) :: split_go sep "" b.
Proof.
  revert cur. induction a as [|c r IH]; intros cur.
  - intros _. rewrite append_nil_l. simpl. rewrite decide_True by done.
    f_equal. induction cur as [|? ? IHc]; [done|].
    rewrite append_cons. by f_equal.
  - intros [Hc Hr]. rewrite append_cons. simpl.
    rewrite decide_False by done. rewrite IH by done.
    f_equal. clear. induction cur as [|? ? IHc]; [done|].
    rewrite !append_cons. by f_equal.
Qed.


(** [scheme token] splits into its two fields. *)
Lemma split_two_fields sep a b :
  free_of sep a → free_of sep b →
  split sep (a +:+ String sep b) = [a; b].
Proof.
  intros Ha Hb. unfold split.
  by rewrite split_go_sep, split_go_free.
Qed.

Lemma verifyAuth_token req w h tok :
  authorization req = Some h →
  split " " h !! 1%nat = Some tok →
  verifyAuth req w =
    (Some (if negb (truthy (Some tok))
           then inr "No authorization token provided"
           else if negb (truthy (sessions w !! tok))
                then inr "Invalid or expired token"
                else inl (default "" (sessions w !! tok))), w).
Proof.
  intros Hh Htok. unfold verifyAuth. rewrite Hh, Htok.
  destruct (negb (truthy (Some tok))); [done|]. simpl.
  by destruct (negb (truthy (sessions w !! tok))).
Qed.

(** X1. A request that does not authenticate is answered with status 401
    and the message of [verifyAuth] by each of the five handlers, and the
    world is left exactly as it was: nothing is stored, no blob call is
    made, no timer is scheduled. *)
Theorem unauthenticated_requests_change_nothing
    (req : request) (w : world) (err : string) (file : option File)
    (body : option ConvertBody) (id : string) (ts now : N) :
  (verifyAuth req w).1 = Some (inr err) →
  (err = "No authorization token provided"
   ∨ err = "Invalid or expired token")
  ∧ upload req file ts now w = (RError 401 err, w)
  ∧ convert req id body ts now w = (RError 401 err, w)
  ∧ getConversion req id w = (RError 401 err, w)
  ∧ library req w = (RError 401 err, w)
  ∧ deleteScore req id w = (RError 401 err, w).
Proof.
  intros Hauth.
  assert (Herr : err = "No authorization token provided"
                 ∨ err = "Invalid or expired token").
  { unfold verifyAuth in Hauth.
    repeat case_match; simpl in Hauth; simplify_eq; auto. }
  split; [exact Herr|].
  assert (R : verifyAuth req w = (Some (inr err), w)).
  { rewrite verifyAuth_eq. by rewrite Hauth. }
  unfold upload, convert, getConversion, library, deleteScore, try_catch.
  unfold_M. rewrite R. unfold unauthorized.
  by destruct Herr as [-> | ->].
Qed.

Lemma unauthenticated_requests_change_nothing_witness :
  deleteScore {| authorization := None |} "score_alice_1000" w_score
  = (RError 401 "No authorization token provided", w_score).
Proof.
  destruct (unauthenticated_requests_change_nothing
              {| authorization := None |} w_score
              "No authorization token provided" None None
              "score_alice_1000" 0 0) as (_ & _ & _ & _ & _ & H).
  - reflexivity.
  - exact H.
Defined.



(** X3. The Authorization header built by the client's [apiCall] from a
    session token is read back by [verifyAuth]: when the token has no
    space and the identity provider maps it to a user, the request is
    authenticated as that user.  Without a session and without a header
    of the caller's own, the request carries no token. *)
Theorem apiCall_header_authenticates
    (w : world) (tok uid : string) (given : option string) :
  tok ≠ "" → free_of " " tok →
  sessions w !! tok = Some uid → uid ≠ "" →
  verifyAuth
    {| authorization := apiCall_authorization (Some tok) given |} w
    = (Some (inl uid), w)
  ∧ verifyAuth {| authorization := apiCall_authorization None None |} w
    = (Some (inr "No authorization token provided"), w).
Proof.
  intros Hne Hfree Hs Huid. split; [|reflexivity].
  unfold apiCall_authorization.
  destruct tok as [|c tok]; [done|]. cbn [truthy prop_key default].
  rewrite (verifyAuth_token _ w ("Bearer " +:+ String c tok) (String c tok));
    [|done|].
  - cbn [truthy negb]. rewrite Hs.
    destruct uid; [done|]. reflexivity.
  - refine (f_equal (λ l, l !! 1%nat)
              (split_two_fields " " "Bearer" (String c tok) _ Hfree)).
    simpl. repeat split; discriminate.
Qed.

Lemma apiCall_header_authenticates_witness :
  verifyAuth
    {| authorization := apiCall_authorization (Some "tok-a") None |} w0
    = (Some (inl "alice"), w0).
Proof.
  destruct (apiCall_header_authenticates w0 "tok-a" "alice" None)
    as [H _].
  - discriminate.
  - simpl. repeat split; discriminate.
  - reflexivity.
  - discriminate.
  - exact H.
Defined.

(** ** What a run leaves in place *)


Section Preserves.
Variable P : world → world → Prop.
Hypothesis P_refl : ∀ w, P w w.
Hypothesis P_trans : ∀ w1 w2 w3, P w1 w2 → P w2 w3 → P w1 w3.

Lemma preserves_ret {A} (a : A) : preserves P (mret a).
Proof. intros w. apply P_refl. Qed.

Lemma preserves_throw {A} : preserves P (@throw A).
Proof. intros w. apply P_refl. Qed.

Lemma preserves_bind {A B} (m : M A) (f : A → M B) :
  preserves P m → (∀ a, preserves P (f a)) → preserves P (m ≫= f).
Proof.
  intros Hm Hf w. unfold mbind, M_bind.
  specialize (Hm w). destruct (m w) as [[a|] w1]; simpl in *; [|done].
  eapply P_trans; [exact Hm | apply Hf].
Qed.

Lemma preserves_verifyAuth req : preserves P (verifyAuth req).
Proof. intros w. rewrite verifyAuth_world. apply P_refl. Qed.

Lemma preserves_try_catch {A} (body : M A) fallback w :
  preserves P body → P w (try_catch body fallback w).2.
Proof.
  intros H. unfold try_catch. specialize (H w).
  by destruct (body w) as [[a|] w1].
Qed.
End Preserves.

Lemma only_read_refl w : only_read w w.
Proof. by repeat split. Qed.

Lemma only_read_trans w1 w2 w3 :
  only_read w1 w2 → only_read w2 w3 → only_read w1 w3.
Proof.
  intros (? & ? & ? & ?) (? & ? & ? & ?). repeat split; congruence.
Qed.

(** A store call that does not write only reads. *)
Lemma only_read_kv_call {A} (f : gmap string value → A * gmap string value) :
  (∀ m, (f m).2 = m) → preserves only_read (kv_call f).
Proof.
  intros Hf w. unfold kv_call.
  destruct w as [m sess faults tape tms].
  destruct faults as [|[] faults]; simpl; [|done|].
  all: specialize (Hf m); destruct (f m) as [a m']; simpl in *; by subst.
Qed.

Lemma only_read_get_index k : preserves only_read (get_index k).
Proof.
  apply preserves_bind; [apply only_read_trans|by apply only_read_kv_call|].
  intros doc. destruct (as_index doc); intros w; apply only_read_refl.
Qed.

(** X4. Status Read and Library Listing only read: whatever the request,
    the stored documents and the outcome of the store calls, they leave
    the metadata store, the sessions, the pending timers and the blob
    store as they were. *)
Theorem status_and_library_only_read
    (req : request) (id : string) (w : world) :
  only_read w (getConversion req id w).2
  ∧ only_read w (library req w).2.
Proof.
  split.
  - apply (preserves_try_catch only_read).
    apply preserves_bind;
      [apply only_read_trans|apply preserves_verifyAuth, only_read_refl|].
    intros [uid|err]; [|apply preserves_ret, only_read_refl].
    apply preserves_bind;
      [apply only_read_trans|by apply only_read_kv_call|].
    intros doc. destruct (denied uid doc);
      [apply preserves_ret, only_read_refl|].
    destruct doc; [apply preserves_ret|apply preserves_throw];
      apply only_read_refl.
  - apply (preserves_try_catch only_read).
    apply preserves_bind;
      [apply only_read_trans|apply preserves_verifyAuth, only_read_refl|].
    intros [uid|err]; [|apply preserves_ret, only_read_refl].
    repeat (apply preserves_bind;
      [apply only_read_trans
      |first [apply only_read_get_index | by apply only_read_kv_call]
      |intros ?]).
    apply preserves_ret, only_read_refl.
Qed.

(** ** Convert *)

(** Every run of convert: it stores the record and schedules the timer,
    or it changes neither.  It makes no blob call. *)
Lemma convert_outcome req scoreId body ts now w :
  let r := (convert req scoreId body ts now w).1 in
  let w' := (convert req scoreId body ts now w).2 in
  sessions w' = sessions w ∧ blob_tape w' = blob_tape w
  ∧ ((∃ uid b,
        (verifyAuth req w).1 = Some (inl uid) ∧ body = Some b
        ∧ r = RConvert (conversionId_at uid ts) processing convert_started
        ∧ kv w' = <[conversionId_at uid ts :=
                      VConversion (new_conversion (conversionId_at uid ts)
                                     scoreId uid b now)]> (kv w)
        ∧ timers w' = (timers w ++ [timer_of uid scoreId b ts now])%list)
     ∨ ((∃ code msg, r = RError code msg)
        ∧ kv w' = kv w ∧ timers w' = timers w)).
Proof.
  destruct (convert req scoreId body ts now w) as [r w'] eqn:Hrun. simpl.
  unfold convert, try_catch in Hrun. unfold_M.
  rewrite verifyAuth_eq in Hrun.
  destruct (verifyAuth req w).1 as [[uid|err]|] eqn:Hauth.
  2,3: injection Hrun as <- <-; split_and!; try done; right; by eauto.
  destruct body as [b|].
  2: injection Hrun as <- <-; split_and!; try done; right; by eauto.
  unfold kv_set, kv_get, kv_call, setTimeout in Hrun. unfold_M.
  destruct w as [m sess faults tape tms].
  destruct (denied uid (m !! scoreId)) eqn:Hd.
  - destruct faults as [|[] ?]; cbn -[new_conversion] in Hrun;
      rewrite ?Hd in Hrun; injection Hrun as <- <-;
      (split_and!; try done; right; by eauto).
  - destruct faults as [|[] [|[] faults]];
      cbn -[new_conversion] in Hrun; rewrite ?Hd in Hrun;
      cbn -[new_conversion] in Hrun; injection Hrun as <- <-;
      (split_and!; try done).
    all: first [ right; by eauto | left; by exists uid, b ].
Qed.

(** X5. A Convert call either succeeds, storing one processing record
    under the new conversion id and scheduling one completion, or answers
    with an error and changes neither the store nor the timers.  In both
    cases it makes no blob call and leaves every index and every other
    document as they were. *)
Theorem convert_writes_one_record_or_nothing
    (req : request) (scoreId : string) (body : option ConvertBody)
    (ts now : N) (w : world) :
  let r := (convert req scoreId body ts now w).1 in
  let w' := (convert req scoreId body ts now w).2 in
  ((∃ cid c t, r = RConvert cid processing convert_started
               ∧ kv w' = <[cid := VConversion c]> (kv w)
               ∧ c_id c = cid ∧ c_status c = processing
               ∧ c_scoreId c = scoreId
               ∧ timers w' = (timers w ++ [t])%list
               ∧ tm_conversionId t = cid ∧ tm_conversionData t = c)
   ∨ ((∃ code msg, r = RError code msg)
      ∧ kv w' = kv w ∧ timers w' = timers w))
  ∧ blob_tape w' = blob_tape w
  ∧ sessions w' = sessions w
  ∧ (∀ u, kv w' !! userConversionsKey u = kv w !! userConversionsKey u
          ∧ kv w' !! userScoresKey u = kv w !! userScoresKey u)
  ∧ (∀ u t, kv w' !! scoreId_at u t = kv w !! scoreId_at u t).
Proof.
  intros r w'. subst r w'.
  destruct (convert_outcome req scoreId body ts now w)
    as (Hs & Hb & [(uid & b & _ & _ & Hr & Hkv & Htm)|(He & Hkv & Htm)]).
  - split_and!; try done.
    + left. eexists _, _, _. by split_and!.
    + intros u. rewrite Hkv. split; by rewrite lookup_insert_ne.
    + intros u t. rewrite Hkv.
      by rewrite lookup_insert_ne
        by apply not_eq_sym, scoreId_not_conversionId.
  - split_and!; try done.
    + right. by split_and!.
    + intros u. by rewrite Hkv.
    + intros u t. by rewrite Hkv.
Qed.

Lemma getConversion_owned req uid id doc w :
  (verifyAuth req w).1 = Some (inl uid) →
  kv w !! id = Some doc →
  userId_of doc = Some uid →
  calm 1 w →
  (getConversion req id w).1 = RJson doc.
Proof.
  intros Hauth Hdoc Hown Hcalm.
  unfold getConversion, try_catch. unfold_M.
  rewrite (verifyAuth_run req w w _ Hauth eq_refl).
  unfold kv_get, kv_call.
  destruct w as [m sess faults tape tms]. simpl in Hdoc.
  destruct faults as [|[] faults]; try calm_false Hcalm.
  all: cbn; rewrite Hdoc, (denied_owned _ _ Hown); reflexivity.
Qed.

(** X6. What Convert stores can be read back: after a successful Convert,
    a Status Read of the returned id by the same user (the store
    answering) returns the processing record with the score id and the
    configuration of the call, while a Status Read by any other user is
    answered 404. *)
Theorem convert_then_status_read
    (req other : request) (uid uid' scoreId : string) (b : ConvertBody)
    (ts now : N) (w : world) (cid : string) (st : Status) (msg : string) :
  (convert req scoreId (Some b) ts now w).1 = RConvert cid st msg →
  (verifyAuth req w).1 = Some (inl uid) →
  (verifyAuth other w).1 = Some (inl uid') → uid' ≠ uid →
  let w' := (convert req scoreId (Some b) ts now w).2 in
  calm 1 w' →
  (getConversion req cid w').1
    = RJson (VConversion (new_conversion cid scoreId uid b now))
  ∧ (getConversion other cid w').1
    = RError 404 "Conversion not found or access denied".
Proof.
  intros R Hauth Hother Hne w' Hcalm.
  destruct (convert_success_inv _ _ _ _ _ _ _ _ _ R)
    as (u & b' & Hauth' & [= <-] & _ & -> & _ & Hkv & _).
  assert (u = uid) as -> by congruence.
  fold w' in Hkv.
  assert (Hs : sessions w = sessions w').
  { symmetry.
    apply (convert_outcome req scoreId (Some b) ts now w). }
  split.
  - apply (getConversion_owned req uid); [|by rewrite Hkv, lookup_insert_eq
                                          |done|done].
    by rewrite (verifyAuth_sessions req w w').
  - assert (A : (verifyAuth other w').1 = Some (inl uid')).
    { by rewrite (verifyAuth_sessions other w w'). }
    rewrite (getConversion_denied other uid' _ w' A).
    + unfold after_lookup. simpl.
      rewrite bool_decide_eq_false_2; [done|].
      unfold calm in Hcalm. destruct (kv_faults w') as [|x t]; [done|].
      simpl in Hcalm. apply Forall_cons in Hcalm as [-> _]. done.
    + rewrite Hkv, lookup_insert_eq. apply denied_foreign. simpl.
      congruence.
Qed.

Lemma convert_then_status_read_witness :
  (getConversion bob_req "conversion_alice_2000" w_processing).1
  = RError 404 "Conversion not found or access denied".
Proof.
  destruct (convert_then_status_read alice_req bob_req "alice" "bob"
              "score_alice_1000" (strings_at 90) 2000 2001 w_score
              "conversion_alice_2000" processing convert_started)
    as [_ H].
  - vm_compute; reflexivity.
  - vm_compute; reflexivity.
  - vm_compute; reflexivity.
  - discriminate.
  - unfold calm. vm_compute. constructor.
  - exact H.
Defined.

(** ** Upload *)


(** Every run of upload, by what it leaves in the store: nothing; the
    score record alone, when the store raises after the first write; or
    the record and the index entry, exactly when it answers with the
    score id.  It schedules nothing. *)
Lemma upload_outcome req file ts now w :
  let r := (upload req file ts now w).1 in
  let w' := (upload req file ts now w).2 in
  sessions w' = sessions w ∧ timers w' = timers w
  ∧ (((∃ code msg, r = RError code msg) ∧ kv w' = kv w)
     ∨ (∃ uid f url,
          (verifyAuth req w).1 = Some (inl uid) ∧ file = Some f
          ∧ let sid := scoreId_at uid ts in
            let md := new_score sid uid f (fileName_at uid ts f) now url in
            (r = RError 500 "Internal server error during file upload"
             ∧ kv w' = <[sid := VScore md]> (kv w))
            ∨ (∃ ids, as_index (kv w !! userScoresKey uid) = Some ids
                 ∧ r = RUpload sid url md
                 ∧ kv w' = <[userScoresKey uid := VIndex (ids ++ [sid])]>
                             (<[sid := VScore md]> (kv w))))).
Proof.
  destruct (upload req file ts now w) as [r w'] eqn:Hrun. simpl.
  unfold upload, try_catch in Hrun. unfold_M.
  rewrite verifyAuth_eq in Hrun.
  destruct (verifyAuth req w).1 as [[uid|err]|] eqn:Hauth.
  2,3: injection Hrun as <- <-; split_and!; try done; left; by eauto.
  destruct file as [f|].
  2: injection Hrun as <- <-; split_and!; try done; left; by eauto.
  destruct (includes allowedTypes (f_type f)).
  2: injection Hrun as <- <-; split_and!; try done; left; by eauto.
  unfold storage_upload, storage_createSignedUrl, blob_call, get_index,
    kv_set, kv_get, kv_call in Hrun.
  unfold_M. cbn [negb] in Hrun.
  change (uid +:+ "/" +:+ pretty ts +:+ "."
              +:+ default "" (last (split "." (f_name f))))
    with (fileName_at uid ts f) in Hrun.
  destruct w as [m sess faults tape tms].
  run_in Hrun ltac:(cbn -[new_score fileName_at] in Hrun;
    rewrite ?(lookup_insert_ne m (scoreId_at uid ts) (userScoresKey uid))
      in Hrun by apply scoreId_not_index).
  all: injection Hrun as <- <-; cbn -[new_score fileName_at].
  all: split_and!; try done.
  all: first
    [ left; split; [by eauto | done]
    | right; eexists uid, f, _; split_and!; try done;
      first
        [ left; split; reflexivity
        | right;
          match goal with
          | H : _ !! userScoresKey _ = Some (VIndex ?ids) |- _ =>
              exists ids; by rewrite H
          | H : _ !! userScoresKey _ = None |- _ =>
              exists []; by rewrite H
          end ] ].
Qed.

Lemma userScoresKey_inj u u' : userScoresKey u = userScoresKey u' → u = u'.
Proof. apply (append_inj_l "user_scores_"). Qed.

Lemma userConversionsKey_inj u u' :
  userConversionsKey u = userConversionsKey u' → u = u'.
Proof. apply (append_inj_l "user_conversions_"). Qed.

(** X7. Upload writes at most two keys, the new score record and the
    uploader's score index, and schedules nothing.  When it answers with
    the score id, the record is stored under that id, owned by the caller,
    with the blob path [user/instant.extension], and the id is the new
    last entry of the caller's score index.  No conversion, no conversion
    index and no other user's score index is touched. *)
Theorem upload_writes_record_and_index_only
    (req : request) (file : option File) (ts now : N) (w : world) :
  let r := (upload req file ts now w).1 in
  let w' := (upload req file ts now w).2 in
  sessions w' = sessions w ∧ timers w' = timers w
  ∧ (∀ k, kv w' !! k ≠ kv w !! k →
       ∃ uid, (verifyAuth req w).1 = Some (inl uid)
              ∧ (k = scoreId_at uid ts ∨ k = userScoresKey uid))
  ∧ (∀ sid url md, r = RUpload sid url md →
       ∃ uid f ids,
         (verifyAuth req w).1 = Some (inl uid) ∧ file = Some f
         ∧ sid = scoreId_at uid ts
         ∧ md = new_score sid uid f (fileName_at uid ts f) now url
         ∧ kv w' !! sid = Some (VScore md)
         ∧ as_index (kv w !! userScoresKey uid) = Some ids
         ∧ kv w' !! userScoresKey uid = Some (VIndex (ids ++ [sid])))
  ∧ (∀ u t, kv w' !! conversionId_at u t = kv w !! conversionId_at u t)
  ∧ (∀ u, kv w' !! userConversionsKey u = kv w !! userConversionsKey u).
Proof.
  intros r w'. subst r w'.
  destruct (upload_outcome req file ts now w)
    as (Hs & Ht & [[(c & m & E) Hkv]|(uid & f & url & Hauth & -> & H)]).
  { split_and!; try done.
    - intros k Hk. by rewrite Hkv in Hk.
    - intros sid url md R. congruence.
    - intros u t. by rewrite Hkv.
    - intros u. by rewrite Hkv. }
  assert (N1 : ∀ u, scoreId_at uid ts ≠ userConversionsKey u) by done.
  assert (N2 : ∀ u, userScoresKey uid ≠ userConversionsKey u) by done.
  assert (N3 : ∀ u t, userScoresKey uid ≠ conversionId_at u t) by done.
  assert (N4 : ∀ u t, scoreId_at uid ts ≠ conversionId_at u t)
    by (intros; apply scoreId_not_conversionId).
  simpl in H. destruct H as [[E Hkv]|(ids & Hidx & E & Hkv)].
  - split_and!; try done.
    + intros k Hk. exists uid. split; [done|]. left.
      destruct (decide (k = scoreId_at uid ts)); [done|].
      by rewrite Hkv, lookup_insert_ne in Hk.
    + intros sid url' md R. congruence.
    + intros u t. by rewrite Hkv, lookup_insert_ne.
    + intros u. by rewrite Hkv, lookup_insert_ne.
  - split_and!; try done.
    + intros k Hk. exists uid. split; [done|].
      destruct (decide (k = userScoresKey uid)); [by right|].
      destruct (decide (k = scoreId_at uid ts)); [by left|].
      by rewrite Hkv, !lookup_insert_ne in Hk.
    + intros sid url' md R. rewrite E in R. injection R as <- <- <-.
      exists uid, f, ids. split_and!; try done.
      * rewrite Hkv, lookup_insert_ne
          by (apply not_eq_sym, scoreId_not_index).
        apply lookup_insert_eq.
      * rewrite Hkv. apply lookup_insert_eq.
    + intros u t. by rewrite Hkv, !lookup_insert_ne.
    + intros u. by rewrite Hkv, !lookup_insert_ne.
Qed.

(** Fetching reads only the requested keys. *)
Lemma fetched_ext (m m' : gmap string value) ids :
  (∀ k, k ∈ ids → m' !! k = m !! k) → fetched m' ids = fetched m ids.
Proof.
  induction ids as [|k ids IH]; [done|]. intros H.
  change (fetched m' (k :: ids))
    with (match m' !! k with
          | Some y => y :: fetched m' ids
          | None => fetched m' ids
          end).
  change (fetched m (k :: ids))
    with (match m !! k with
          | Some y => y :: fetched m ids
          | None => fetched m ids
          end).
  rewrite (H k) by (apply elem_of_cons; auto).
  rewrite IH; [done|]. intros k' Hk'. apply H, elem_of_cons. auto.
Qed.

(** X8. An uploaded score is listed for its owner: after an Upload that
    answered with the score id, a Library Listing by the same user (the
    store answering) contains an entry with exactly the stored metadata.
    A listing by another user, whose two indexes mention neither of the
    two written keys, is the same as before the upload. *)
Theorem upload_then_library
    (req other : request) (uid uid' : string) (file : option File)
    (ts now : N) (w : world) (sid : string) (url : option string)
    (md : Score) (cids ids' cids' : list string) :
  (upload req file ts now w).1 = RUpload sid url md →
  (verifyAuth req w).1 = Some (inl uid) →
  let w' := (upload req file ts now w).2 in
  calm 4 w' →
  as_index (kv w !! userConversionsKey uid) = Some cids →
  (verifyAuth other w).1 = Some (inl uid') → uid' ≠ uid →
  calm 4 w →
  as_index (kv w !! userScoresKey uid') = Some ids' →
  as_index (kv w !! userConversionsKey uid') = Some cids' →
  (∀ k, k ∈ (ids' ++ cids')%list → k ≠ sid ∧ k ≠ userScoresKey uid) →
  (∃ L e, (library req w').1 = RLibrary L
          ∧ e ∈ L ∧ e_score e = VScore md)
  ∧ (library other w').1 = (library other w).1.
Proof.
  intros R Hauth w' Hcalm' Hc Hother Hne Hcalm Hi' Hc' Hfresh.
  destruct (upload_outcome req file ts now w)
    as (Hs & _ & [[(c & m & E) _]|(u & f & x & Hauth' & -> & H)]);
    [congruence|].
  assert (u = uid) as -> by congruence.
  simpl in H. destruct H as [[E _]|(ids & Hidx & E & Hkv)]; [congruence|].
  rewrite E in R. injection R as <- <- <-.
  fold w' in Hkv, Hs.
  set (sid := scoreId_at uid ts) in *.
  set (md := new_score sid uid f (fileName_at uid ts f) now x) in *.
  assert (K : ∀ k, k ≠ sid → k ≠ userScoresKey uid →
              kv w' !! k = kv w !! k).
  { intros k H1 H2. by rewrite Hkv, !lookup_insert_ne. }
  split.
  - destruct (library_run req uid w' (ids ++ [sid]) cids) as [HL _].
    + by rewrite (verifyAuth_sessions req w w').
    + done.
    + rewrite Hkv, lookup_insert_eq. done.
    + by rewrite K.
    + eexists _, (attach (fetched (kv w') cids) (VScore md)).
      split; [exact HL|]. split; [|reflexivity].
      rewrite js_sort_perm. apply list_elem_of_fmap.
      exists (VScore md). split; [reflexivity|].
      apply list_elem_of_omap. exists sid. split.
      * apply elem_of_app. right. by apply list_elem_of_singleton.
      * rewrite Hkv, lookup_insert_ne
          by (apply not_eq_sym, scoreId_not_index).
        apply lookup_insert_eq.
  - assert (A' : (verifyAuth other w').1 = Some (inl uid'))
      by (by rewrite (verifyAuth_sessions other w w')).
    assert (F : ∀ l, (∀ k, k ∈ l → k ∈ (ids' ++ cids')%list) →
                fetched (kv w') l = fetched (kv w) l).
    { intros l Hl. apply fetched_ext. intros k Hk.
      destruct (Hfresh k (Hl k Hk)). by apply K. }
    destruct (library_run other uid' w' ids' cids') as [-> _];
      [done|done| | |].
    + rewrite K; [done|apply not_eq_sym, scoreId_not_index|].
      by intros ?%userScoresKey_inj.
    + by rewrite K.
    + destruct (library_run other uid' w ids' cids') as [-> _];
        [done..|].
      rewrite !F; [done|intros k Hk; apply elem_of_app; auto..].
Qed.


Lemma upload_then_library_witness :
  (∃ L e, (library alice_req
             (upload alice_req (Some png) 1000 1001 w_ready).2).1
          = RLibrary L
          ∧ e ∈ L
          ∧ e_score e
            = VScore (new_score "score_alice_1000" "alice" png
                        "alice/1000.png" 1001
                        (Some "https://signed/alice/1000.png")))
  ∧ (library bob_req (upload alice_req (Some png) 1000 1001 w_ready).2).1
    = (library bob_req w_ready).1.
Proof.
  apply (upload_then_library alice_req bob_req "alice" "bob" (Some png)
           1000 1001 w_ready "score_alice_1000"
           (Some "https://signed/alice/1000.png")
           (new_score "score_alice_1000" "alice" png "alice/1000.png" 1001
              (Some "https://signed/alice/1000.png"))
           [] [] []).
  - vm_compute; reflexivity.
  - vm_compute; reflexivity.
  - unfold calm. vm_compute. constructor.
  - vm_compute; reflexivity.
  - vm_compute; reflexivity.
  - discriminate.
  - unfold calm. vm_compute. constructor.
  - vm_compute; reflexivity.
  - vm_compute; reflexivity.
  - intros k Hk. by apply elem_of_nil in Hk.
Defined.

(** ** The blob path of an upload *)

Lemma append_nil_r (s : string) : s +:+ "" = s.
Proof. induction s as [|c s IH]; [done|]. rewrite append_cons. by f_equal. Qed.

Lemma append_assoc (a b c : string) : (a +:+ b) +:+ c = a +:+ (b +:+ c).
Proof.
  induction a as [|x a IH]; [done|]. rewrite !append_cons. by f_equal.
Qed.

Lemma free_of_app ch a b : free_of ch a → free_of ch b → free_of ch (a +:+ b).
Proof.
  induction a as [|x a IH]; [done|]. rewrite append_cons.
  intros [? ?] ?. split; [done|]. by apply IH.
Qed.

(** The last field of a split: the whole string when the separator does
    not occur, else what follows its last occurrence. *)
Lemma split_go_last sep cur s :
  free_of sep cur →
  ∃ l, last (split_go sep cur s) = Some l
       ∧ free_of sep l
       ∧ ((free_of sep s ∧ l = cur +:+ s)
          ∨ ∃ p, s = p +:+ String sep l).
Proof.
  revert cur. induction s as [|c r IH]; intros cur Hcur.
  - exists cur. simpl. rewrite append_nil_r. split_and!; [done..|].
    by left.
  - simpl. destruct (decide (c = sep)) as [->|Hc].
    + destruct (IH "" I) as (l & Hl & Hfree & Hcase).
      exists l. split_and!; [|done|].
      * destruct (split_go sep "" r); [done|]. exact Hl.
      * right. destruct Hcase as [[_ ->]|(p & ->)].
        -- by exists "".
        -- by exists (String sep p).
    + destruct (IH (cur +:+ String c ""))
        as (l & Hl & Hfree & Hcase).
      { apply free_of_app; [done|]. by split. }
      exists l. split_and!; [done..|].
      destruct Hcase as [[Hr ->]|(p & ->)].
      * left. split; [by split|]. by rewrite append_assoc.
      * right. by exists (String c p).
Qed.

(** X9. The blob path of an upload is [user/instant.ext], where [ext] is
    what follows the last dot of the file name and has no dot itself; a
    file name without a dot is taken whole as its extension. *)
Theorem upload_path_extension (uid : string) (ts : N) (file : File) :
  ∃ ext,
    fileName_at uid ts file = uid +:+ "/" +:+ pretty ts +:+ "." +:+ ext
    ∧ free_of "." ext
    ∧ ((free_of "." (f_name file) ∧ ext = f_name file)
       ∨ ∃ p, f_name file = p +:+ "." +:+ ext).
Proof.
  destruct (split_go_last "." "" (f_name file) I)
    as (ext & Hl & Hfree & Hcase).
  exists ext. unfold fileName_at, split. rewrite Hl. by split_and!.
Qed.

(** The paths of three file names. *)
Example upload_path_examples :
  fileName_at "alice" 1000 {| f_name := "mass.in.b.pdf";
                              f_type := "application/pdf"; f_size := 1 |}
    = "alice/1000.pdf"
  ∧ fileName_at "alice" 1000 {| f_name := "scan";
                                f_type := "image/png"; f_size := 1 |}
    = "alice/1000.scan"
  ∧ fileName_at "alice" 1000 {| f_name := "scan.";
                                f_type := "image/png"; f_size := 1 |}
    = "alice/1000.".
Proof. split_and!; vm_compute; reflexivity. Qed.

(** ** Completion *)

(** A run of the [try] block that reaches its end found the index as an
    array and appended the conversion id to it. *)
Lemma completion_try_success_index t now w :
  (completion_try t now w).1 = Some tt →
  tm_conversionId t ≠ userConversionsKey (tm_userId t) →
  ∃ audioUrl midiUrl ids,
    as_index (kv w !! userConversionsKey (tm_userId t)) = Some ids
    ∧ kv (completion_try t now w).2
      = <[userConversionsKey (tm_userId t) :=
            VIndex (ids ++ [tm_conversionId t])]>
          (<[tm_conversionId t :=
               VConversion (updatedConversion (tm_conversionData t)
                              audioUrl midiUrl
                              (audioPath_of t) (midiPath_of t) now)]>
             (kv w)).
Proof.
  intros Hrun Hne.
  destruct (completion_try t now w) as [r w'] eqn:E. simpl in *. subst r.
  unfold completion_try, storage_createSignedUrl, blob_call, get_index,
    kv_set, kv_get, kv_call in E.
  unfold_M.
  destruct w as [m sess faults tape tms].
  run_in E ltac:(cbn -[updatedConversion] in E;
                 rewrite ?lookup_insert_ne in E by done).
  all: try discriminate.
  all: injection E as <-; cbn -[updatedConversion].
  all: match goal with
       | |- context [updatedConversion _ ?a ?b _ _ _] => exists a, b
       end.
  all: match goal with
       | H : _ !! userConversionsKey _ = Some (VIndex ?ids) |- _ =>
           exists ids; by rewrite H
       | H : _ !! userConversionsKey _ = None |- _ =>
           exists []; by rewrite H
       end.
Qed.

Lemma same_sessions_timers_refl w : same_sessions_timers w w.
Proof. by split. Qed.

Lemma same_sessions_timers_trans w1 w2 w3 :
  same_sessions_timers w1 w2 → same_sessions_timers w2 w3 →
  same_sessions_timers w1 w3.
Proof. intros [? ?] [? ?]. split; congruence. Qed.

Lemma sst_kv_call {A} (f : gmap string value → A * gmap string value) :
  preserves same_sessions_timers (kv_call f).
Proof.
  intros w. unfold kv_call. destruct w as [m sess faults tape tms].
  destruct faults as [|[] faults]; simpl; [|done|];
    by destruct (f m).
Qed.

Lemma sst_blob_call : preserves same_sessions_timers blob_call.
Proof.
  intros w. unfold blob_call. destruct w as [m sess faults tape tms].
  by destruct tape as [|[] tape].
Qed.

Lemma sst_get_index k : preserves same_sessions_timers (get_index k).
Proof.
  apply preserves_bind;
    [apply same_sessions_timers_trans|apply sst_kv_call|].
  intros doc. destruct (as_index doc); intros w;
    apply same_sessions_timers_refl.
Qed.

Lemma sst_createSignedUrl bucket path :
  preserves same_sessions_timers (storage_createSignedUrl bucket path).
Proof.
  apply preserves_bind;
    [apply same_sessions_timers_trans|apply sst_blob_call|].
  intros r. apply preserves_ret, same_sessions_timers_refl.
Qed.

(** No run of the callback changes the sessions or the timers. *)
Lemma completion_sessions_timers t now w :
  same_sessions_timers w (completion t now w).
Proof.
  assert (T : preserves same_sessions_timers (completion_try t now)).
  { unfold completion_try.
    repeat (apply preserves_bind;
      [apply same_sessions_timers_trans
      |first [apply sst_createSignedUrl | apply sst_get_index
             | apply sst_kv_call]
      |intros ?]).
    apply sst_kv_call. }
  rewrite completion_unfold. specialize (T w).
  destruct (completion_try t now w).1; [done|].
  eapply same_sessions_timers_trans; [exact T|].
  apply (sst_kv_call _ _).
Qed.

Lemma calm_le n n' w : (n ≤ n')%nat → calm n' w → calm n w.
Proof.
  unfold calm. intros Hle H.
  replace n with (min n n') by lia.
  rewrite <- take_take. by apply Forall_take.
Qed.

(** X10. A completion that runs to its end makes the conversion
    discoverable: the id becomes the last entry of the owner's conversion
    index; a Status Read by the owner returns the completed record, with
    the audio and MIDI paths [user/id.mp3] and [user/id.mid]; and a
    Library Listing by the owner attaches the record to every entry for
    the score it was made from. *)
Theorem completion_makes_conversion_discoverable
    (req : request) (uid scoreId : string) (b : ConvertBody)
    (ts createdAt now : N) (w : world) (sids : list string) :
  let t := timer_of uid scoreId b ts createdAt in
  let cid := conversionId_at uid ts in
  let w' := completion t now w in
  (completion_try t now w).1 = Some tt →
  (verifyAuth req w).1 = Some (inl uid) →
  calm 4 w' →
  as_index (kv w !! userScoresKey uid) = Some sids →
  ∃ c ids,
    as_index (kv w !! userConversionsKey uid) = Some ids
    ∧ kv w' !! userConversionsKey uid = Some (VIndex (ids ++ [cid]))
    ∧ (getConversion req cid w').1 = RJson (VConversion c)
    ∧ c_status c = completed ∧ c_scoreId c = scoreId
    ∧ c_audioPath c = Some (uid +:+ "/" +:+ cid +:+ ".mp3")
    ∧ c_midiPath c = Some (uid +:+ "/" +:+ cid +:+ ".mid")
    ∧ c_completedAt c = Some now
    ∧ ∃ L, (library req w').1 = RLibrary L
           ∧ ∀ e, e ∈ L → prop_key (id_of (e_score e)) = scoreId →
                  VConversion c ∈ e_conversions e.
Proof.
  intros t cid w' Hrun Hauth Hcalm Hsids.
  assert (Hne : cid ≠ userConversionsKey uid)
    by apply conversionId_not_index.
  destruct (completion_try_success_index t now w Hrun Hne)
    as (a & m' & ids & Hidx & Hkv).
  assert (Hw' : w' = (completion_try t now w).2).
  { subst w'. by rewrite completion_unfold, Hrun. }
  rewrite <- Hw' in Hkv. simpl in Hkv, Hidx.
  set (c := updatedConversion (tm_conversionData t) a m'
              (audioPath_of t) (midiPath_of t) now) in *.
  assert (Hc : kv w' !! cid = Some (VConversion c)).
  { rewrite Hkv, lookup_insert_ne by done. apply lookup_insert_eq. }
  assert (A : (verifyAuth req w').1 = Some (inl uid)).
  { rewrite (verifyAuth_sessions req w w'); [done|].
    symmetry. apply completion_sessions_timers. }
  exists c, ids. split_and!; try done.
  - rewrite Hkv. exact (lookup_insert_eq _ _ _).
  - apply (getConversion_owned req uid); try done.
    apply (calm_le 1 4); [lia|done].
  - destruct (library_run req uid w' sids (ids ++ [cid])) as [HL _];
      try done.
    + rewrite Hkv, !lookup_insert_ne; [done|done|].
      apply index_keys_differ.
    + rewrite Hkv. by rewrite lookup_insert_eq.
    + eexists. split; [exact HL|].
      intros e. rewrite js_sort_perm, list_elem_of_fmap.
      intros (score & -> & _) Hid. simpl in *.
      apply list_elem_of_filter. split; [by rewrite Hid|].
      apply list_elem_of_omap. exists cid. split; [|done].
      apply elem_of_app. right. by apply list_elem_of_singleton.
Qed.

Lemma completion_makes_conversion_discoverable_witness :
  ∃ c, (getConversion alice_req (conversionId_at "alice" 2000)
          (completion
             (timer_of "alice" "score_alice_1000" (strings_at 90) 2000 2001)
             4000 (with_blob_tape signing w_processing))).1
       = RJson (VConversion c)
       ∧ c_status c = completed.
Proof.
  destruct (completion_makes_conversion_discoverable alice_req "alice"
              "score_alice_1000" (strings_at 90) 2000 2001 4000
              (with_blob_tape signing w_processing) ["score_alice_1000"])
    as (c & ids & _ & _ & H1 & H2 & _).
  - vm_compute; reflexivity.
  - vm_compute; reflexivity.
  - unfold calm. vm_compute. constructor.
  - vm_compute; reflexivity.
  - exists c. split; [exact H1 | exact H2].
Defined.

(** X11. Whatever happens in the completion callback, it touches at most
    two keys, the conversion record and the owner's conversion index, and
    neither the sessions nor the timers.  The index changes only when the
    callback runs to its end: the id is then appended and the stored
    record is the completed one. *)
Theorem completion_touches_record_and_index_only
    (uid scoreId : string) (b : ConvertBody) (ts createdAt now : N)
    (w : world) :
  let t := timer_of uid scoreId b ts createdAt in
  let cid := conversionId_at uid ts in
  let w' := completion t now w in
  sessions w' = sessions w ∧ timers w' = timers w
  ∧ (∀ k, k ≠ cid → k ≠ userConversionsKey uid →
          kv w' !! k = kv w !! k)
  ∧ (kv w' !! userConversionsKey uid ≠ kv w !! userConversionsKey uid →
     ∃ ids c,
       as_index (kv w !! userConversionsKey uid) = Some ids
       ∧ kv w' !! userConversionsKey uid = Some (VIndex (ids ++ [cid]))
       ∧ kv w' !! cid = Some (VConversion c)
       ∧ c_status c = completed).
Proof.
  intros t cid w'.
  assert (Hne : cid ≠ userConversionsKey uid)
    by apply conversionId_not_index.
  destruct (completion_sessions_timers t now w) as [Hs Ht].
  split; [exact Hs|]. split; [exact Ht|].
  subst w'. rewrite completion_unfold.
  destruct (completion_try t now w).1 as [[]|] eqn:Hrun.
  - destruct (completion_try_success_index t now w Hrun Hne)
      as (a & m' & ids & Hidx & ->).
    split.
    + intros k H1 H2. by rewrite !lookup_insert_ne.
    + intros _. eexists ids, _. split; [exact Hidx|].
      split; [exact (lookup_insert_eq _ _ _)|].
      split.
      * rewrite lookup_insert_ne by done. exact (lookup_insert_eq _ _ _).
      * reflexivity.
  - assert (F : ∀ k, k ≠ cid →
              kv (completion_catch t (completion_try t now w).2).2 !! k
              = kv w !! k).
    { intros k Hk.
      destruct (completion_catch_kv t (completion_try t now w).2)
        as [->| ->];
        rewrite ?lookup_insert_ne by done;
        (destruct (completion_try_failure _ _ _ Hrun)
           as [->|(a & m' & ->)];
         by rewrite ?lookup_insert_ne by done). }
    split.
    + intros k H1 _. by apply F.
    + intros H. exfalso. apply H. apply F. by apply not_eq_sym.
Qed.

(** ** Delete Score, continued *)

Lemma deleteScore_removes_indexed_conversions_witness :
  kv (deleteScore alice_req "score_alice_1000" w_completed).2
    !! "conversion_alice_2000" = None.
Proof.
  destruct (deleteScore_removes_indexed_conversions
              alice_req "alice" "score_alice_1000" w_completed
              "Score and all conversions deleted successfully"
              ["conversion_alice_2000"] "conversion_alice_2000"
              (updatedConversion
                 (new_conversion "conversion_alice_2000" "score_alice_1000"
                    "alice" (strings_at 90) 2001)
                 (Some "https://signed/audio") (Some "https://signed/midi")
                 "alice/conversion_alice_2000.mp3"
                 "alice/conversion_alice_2000.mid" 4000))
    as (H & _).
  - vm_compute; reflexivity.
  - vm_compute; reflexivity.
  - vm_compute; reflexivity.
  - apply list_elem_of_singleton. reflexivity.
  - vm_compute; reflexivity.
  - reflexivity.
  - reflexivity.
  - discriminate.
  - discriminate.
  - exact H.
Defined.

Lemma sst_storage_remove bucket path :
  preserves same_sessions_timers (storage_remove bucket path).
Proof.
  apply preserves_bind;
    [apply same_sessions_timers_trans|apply sst_blob_call|].
  intros r. apply preserves_ret, same_sessions_timers_refl.
Qed.

Lemma sst_remove_if_set bucket path :
  preserves same_sessions_timers (remove_if_set bucket path).
Proof.
  unfold remove_if_set. destruct (truthy path).
  - apply sst_storage_remove.
  - apply preserves_ret, same_sessions_timers_refl.
Qed.

Lemma sst_delete_conversions l :
  preserves same_sessions_timers (delete_conversions l).
Proof.
  induction l as [|c l IH]; [apply preserves_ret, same_sessions_timers_refl|].
  cbn [delete_conversions].
  repeat (apply preserves_bind;
    [apply same_sessions_timers_trans
    |first [apply sst_remove_if_set | apply sst_kv_call]
    |intros ?]).
  exact IH.
Qed.

(** No run of delete changes the sessions or the timers. *)
Lemma deleteScore_sessions_timers req scoreId w :
  same_sessions_timers w (deleteScore req scoreId w).2.
Proof.
  apply (preserves_try_catch same_sessions_timers).
  apply preserves_bind;
    [apply same_sessions_timers_trans
    |apply preserves_verifyAuth, same_sessions_timers_refl|].
  intros [uid|err]; [|apply preserves_ret, same_sessions_timers_refl].
  apply preserves_bind;
    [apply same_sessions_timers_trans|apply sst_kv_call|].
  intros doc. destruct (denied uid doc);
    [apply preserves_ret, same_sessions_timers_refl|].
  repeat (apply preserves_bind;
    [apply same_sessions_timers_trans
    |first [apply sst_storage_remove | apply sst_get_index
           | apply sst_delete_conversions | apply sst_kv_call]
    |intros ?]).
  apply preserves_ret, same_sessions_timers_refl.
Qed.


(** X13. A Delete Score that answers with its confirmation writes only
    the score record, the caller's two indexes and the records of the
    conversions it deleted: every other document, and with it every
    document and index of the other users, is left as it was, and so are
    the sessions and the timers.  The score id is filtered out of the
    score index, the order of the remaining ids being kept. *)
Theorem deleteScore_touches_own_documents_only
    (req : request) (uid scoreId : string) (w : world) (msg : string)
    (cids sids : list string) :
  (deleteScore req scoreId w).1 = RMessage msg →
  (verifyAuth req w).1 = Some (inl uid) →
  as_index (kv w !! userConversionsKey uid) = Some cids →
  as_index (kv w !! userScoresKey uid) = Some sids →
  let w' := (deleteScore req scoreId w).2 in
  let deleted := c_id <$> scoreConversions_of scoreId (fetched (kv w) cids) in
  sessions w' = sessions w ∧ timers w' = timers w
  ∧ (∀ k, k ≠ scoreId → k ≠ userConversionsKey uid →
          k ≠ userScoresKey uid → k ∉ deleted →
          kv w' !! k = kv w !! k)
  ∧ (scoreId ≠ userScoresKey uid → userScoresKey uid ∉ deleted →
     kv w' !! userScoresKey uid
       = Some (VIndex (filter (λ id, id ≠ scoreId) sids)))
  ∧ (scoreId ≠ userScoresKey uid →
     kv w' !! userConversionsKey uid
       = Some (VIndex (filter (λ id, id ∉ deleted) cids))).
Proof.
  intros R Hauth Hc Hs w' deleted.
  destruct (deleteScore_sessions_timers req scoreId w) as [Hse Hti].
  split; [exact Hse|]. split; [exact Hti|].
  destruct (deleteScore_success_inv _ _ _ _ R)
    as (uid' & ids & sids' & Hauth' & Hd & Hidx & Hsidx & Hkv & _).
  assert (uid' = uid) as -> by congruence.
  assert (ids = cids) as -> by congruence.
  fold w' in Hkv.
  assert (Hne : scoreId ≠ userConversionsKey uid).
  { intros ->. unfold denied in Hd.
    destruct (kv w !! userConversionsKey uid) as [[]|]; discriminate. }
  split_and!.
  - intros k H1 H2 H3 H4.
    rewrite Hkv, lookup_insert_ne by done.
    unfold after_cascade.
    rewrite lookup_delete_ne, lookup_insert_ne by done.
    rewrite without_conversions_lookup. by rewrite decide_False.
  - intros H1 H2.
    assert (E : after_cascade (kv w) uid scoreId cids !! userScoresKey uid
                = kv w !! userScoresKey uid).
    { unfold after_cascade.
      rewrite lookup_delete_ne, lookup_insert_ne
        by (done || apply index_keys_differ).
      rewrite without_conversions_lookup. by rewrite decide_False. }
    rewrite E, Hs in Hsidx. injection Hsidx as ->.
    rewrite Hkv. exact (lookup_insert_eq _ _ _).
  - intros H1.
    rewrite Hkv, lookup_insert_ne by apply not_eq_sym, index_keys_differ.
    unfold after_cascade. rewrite lookup_delete_ne by done.
    exact (lookup_insert_eq _ _ _).
Qed.

Lemma deleteScore_touches_own_documents_only_witness :
  kv (deleteScore alice_req "score_alice_1000" w_completed).2
    !! userScoresKey "alice" = Some (VIndex []).
Proof.
  destruct (deleteScore_touches_own_documents_only
              alice_req "alice" "score_alice_1000" w_completed
              "Score and all conversions deleted successfully"
              ["conversion_alice_2000"] ["score_alice_1000"])
    as (_ & _ & _ & H & _).
  - vm_compute; reflexivity.
  - vm_compute; reflexivity.
  - vm_compute; reflexivity.
  - vm_compute; reflexivity.
  - rewrite H; [vm_compute; reflexivity|discriminate|].
    vm_compute. intros E.
    apply list_elem_of_singleton in E. discriminate.
Defined.



(** * Start-up and sign-up *)





(** A first run on a store that has the audio bucket only. *)
Example initializeBuckets_first_run :
  initializeBuckets (Some ["make-f24025d1-audio"; "avatars"])
  = ["make-f24025d1-scores"; "make-f24025d1-midi"].
Proof. vm_compute; reflexivity. Qed.


(** The first field of a split: the whole string when the separator does
    not occur, else what precedes its first occurrence. *)
Lemma split_go_head sep cur s :
  ∃ a, head (split_go sep cur s) = Some (cur +:+ a)
       ∧ free_of sep a
       ∧ (s = a ∨ ∃ r, s = a +:+ String sep r).
Proof.
  revert cur. induction s as [|c r IH]; intros cur.
  - exists "". simpl. rewrite append_nil_r. split_and!; [done..|].
    by left.
  - simpl. destruct (decide (c = sep)) as [->|Hc].
    + exists "". simpl. rewrite append_nil_r. split_and!; [done..|].
      right. by exists r.
    + destruct (IH (cur +:+ String c "")) as (a & Ha & Hfree & Hcase).
      exists (String c a). rewrite Ha, append_assoc. split_and!.
      * done.
      * by split.
      * destruct Hcase as [->|(r' & ->)]; [by left|].
        right. by exists r'.
Qed.

(** X16. Sign-up without an e-mail address or without a password is
    refused with status 400 whatever the identity provider would answer.
    Otherwise the provider is asked to create a confirmed account whose
    display name is the given name or, when none is given, the part of
    the e-mail address before its first [@]; a refusal of the provider
    is passed on with status 400. *)
Theorem signup_validation_and_display_name
    (b : SignupBody) (createUser : CreateUser → created)
    (email password : string) :
  ((truthy (sb_email b) = false ∨ truthy (sb_password b) = false) →
   signup (Some b) createUser
     = SignupError 400 "Email and password are required")
  ∧ (sb_email b = Some email → sb_password b = Some password →
     email ≠ "" → password ≠ "" →
     ∃ name,
       let asked := {| cu_email := email; cu_password := password;
                       cu_name := name; cu_email_confirm := true |} in
       (∀ given, sb_name b = Some given → given ≠ "" → name = given)
       ∧ ((sb_name b = None ∨ sb_name b = Some "") →
          free_of "@" name
          ∧ (email = name ∨ ∃ r, email = name +:+ "@" +:+ r))
       ∧ (∀ user, createUser asked = Created user →
            signup (Some b) createUser
              = SignupOk user "Account created successfully")
       ∧ (∀ message, createUser asked = Refused message →
            signup (Some b) createUser
              = SignupError 400 ("Failed to create user: " +:+ message))).
Proof.
  split.
  - intros H. unfold signup.
    destruct H as [-> | ->]; [done|]. by rewrite orb_true_r.
  - intros He Hp Hne Hnp.
    exists (display_name (sb_name b) email).
    assert (T : negb (truthy (sb_email b)) || negb (truthy (sb_password b))
                = false).
    { rewrite He, Hp. by destruct email, password. }
    split_and!.
    + intros given -> Hg. by destruct given.
    + intros Hn.
      destruct (split_go_head "@" "" email) as (a & Ha & Hfree & Hcase).
      assert (display_name (sb_name b) email = a) as ->.
      { unfold display_name, split. rewrite Ha.
        by destruct Hn as [-> | ->]. }
      split; [done|]. destruct Hcase as [->|(r & ->)]; [by left|].
      right. by exists r.
    + intros user Hc. unfold signup. rewrite T, He, Hp. simpl.
      by rewrite Hc.
    + intros message Hc. unfold signup. rewrite T, He, Hp. simpl.
      by rewrite Hc.
Qed.

Lemma signup_validation_and_display_name_witness :
  signup (Some {| sb_email := Some "ada@example.org";
                  sb_password := Some "secret1"; sb_name := None |})
         (λ _, Created "u-1")
  = SignupOk "u-1" "Account created successfully".
Proof.
  destruct (signup_validation_and_display_name
              {| sb_email := Some "ada@example.org";
                 sb_password := Some "secret1"; sb_name := None |}
              (λ _, Created "u-1") "ada@example.org" "secret1") as [_ H].
  destruct H as (name & _ & _ & Hc & _); [done..|].
  by apply Hc.
Defined.

(** Display names: a given name, the default, and the default of an
    address that starts with [@]. *)
Example display_name_examples :
  display_name (Some "Ada L.") "ada@example.org" = "Ada L."
  ∧ display_name None "ada@example.org" = "ada"
  ∧ display_name (Some "") "ada.l@x@y" = "ada.l"
  ∧ display_name None "@example.org" = "".
Proof. split_and!; vm_compute; reflexivity. Qed.

(** * The client *)


(** An upload goes through when the caller is authenticated, the type is
    allowed, the blob store takes the file and does not raise while
    signing, the store answers and the score index is an array. *)
Lemma upload_succeeds req uid file ts now w ids :
  (verifyAuth req w).1 = Some (inl uid) →
  f_type file ∈ allowedTypes →
  blob_uploaded (blob_tape w) → ¬ blob_store_error (blob_tape w) →
  calm 3 w →
  as_index (kv w !! userScoresKey uid) = Some ids →
  ∃ url, (upload req (Some file) ts now w).1
         = RUpload (scoreId_at uid ts) url
             (new_score (scoreId_at uid ts) uid file
                (fileName_at uid ts file) now url).
Proof.
  intros Hauth Hin Hup Hnerr Hcalm Hidx.
  unfold upload, try_catch. unfold_M.
  rewrite (verifyAuth_run req w w _ Hauth eq_refl).
  unfold includes. rewrite bool_decide_eq_true_2 by done.
  cbn [negb].
  change (uid +:+ "/" +:+ pretty ts +:+ "."
              +:+ default "" (last (split "." (f_name file))))
    with (fileName_at uid ts file).
  unfold storage_upload, storage_createSignedUrl, blob_call, get_index,
    kv_set, kv_get, kv_call.
  unfold_M.
  destruct w as [m sess faults tape tms]. simpl in Hup, Hnerr, Hidx.
  destruct tape as [|[d|e|] [|[d'|e'|] tape]]; try done.
  all: destruct faults as [|[] [|[] [|[] faults]]]; try calm_false Hcalm.
  all: cbn -[new_score fileName_at].
  all: rewrite ?(lookup_insert_ne m (scoreId_at uid ts) (userScoresKey uid))
    by apply scoreId_not_index.
  all: rewrite Hidx; cbn -[new_score fileName_at].
  all: by eexists.
Qed.

(** X17. The upload area lets a file through exactly when its declared
    type is one of the four accepted types and its size is at most the
    limit; the type is checked first.  A file it lets through is accepted
    by the Upload handler (caller authenticated, stores answering).  The
    size limit exists on the client only: the handler accepts a file of
    an accepted type whatever its size. *)
Theorem upload_area_validation
    (formatFileSize : N → string) (maxSizeMB : N) (file : File)
    (req : request) (uid : string) (ts now : N) (w : world)
    (ids : list string) :
  (validateFile formatFileSize maxSizeMB file = None ↔
     f_type file ∈ ["image/jpeg"; "image/png"; "image/jpg"; "application/pdf"]
     ∧ (f_size file ≤ maxSizeMB * 1048576)%N)
  ∧ (f_type file ∉ acceptedTypes →
     validateFile formatFileSize maxSizeMB file
       = Some "Invalid file type. Please upload JPG, PNG, or PDF files only.")
  ∧ ((verifyAuth req w).1 = Some (inl uid) →
     blob_uploaded (blob_tape w) → ¬ blob_store_error (blob_tape w) →
     calm 3 w →
     as_index (kv w !! userScoresKey uid) = Some ids →
     (validateFile formatFileSize maxSizeMB file = None →
      ∃ url md, (upload req (Some file) ts now w).1
                = RUpload (scoreId_at uid ts) url md
                ∧ s_fileSize md = f_size file)
     ∧ (f_type file ∈ acceptedTypes →
        ∃ url md, (upload req (Some file) ts now w).1
                  = RUpload (scoreId_at uid ts) url md
                  ∧ s_fileSize md = f_size file)).
Proof.
  assert (V : validateFile formatFileSize maxSizeMB file = None ↔
              f_type file ∈ acceptedTypes
              ∧ (f_size file ≤ maxSizeMB * 1048576)%N).
  { unfold validateFile, includes, maxSizeBytes.
    destruct (decide (f_type file ∈ acceptedTypes)) as [Hin|Hout].
    - rewrite bool_decide_eq_true_2 by done. cbn [negb].
      destruct (N.ltb_spec (maxSizeMB * 1024 * 1024) (f_size file)).
      + split; [done|]. intros [_ ?]. lia.
      + split; [|done]. intros _. split; [done|lia].
    - rewrite bool_decide_eq_false_2 by done. cbn [negb].
      split; [done|]. by intros [? _]. }
  split_and!.
  - exact V.
  - intros Hout. unfold validateFile, includes.
    by rewrite bool_decide_eq_false_2.
  - intros Hauth Hup Hnerr Hcalm Hidx.
    assert (S : f_type file ∈ acceptedTypes →
                ∃ url md, (upload req (Some file) ts now w).1
                          = RUpload (scoreId_at uid ts) url md
                          ∧ s_fileSize md = f_size file).
    { intros Hin.
      destruct (upload_succeeds req uid file ts now w ids)
        as (url & ->); try done.
      by eexists _, _. }
    split; [|exact S]. intros Hv. apply S. by apply V.
Qed.


Lemma upload_area_validation_witness :
  validateFile (λ n, pretty n +:+ " B") 10 big_png
    = Some "File size exceeds 10MB limit. Current size: 11534336 B"
  ∧ ∃ url md, (upload alice_req (Some big_png) 1000 1001 w_ready).1
              = RUpload (scoreId_at "alice" 1000) url md
              ∧ s_fileSize md = f_size big_png.
Proof.
  split; [vm_compute; reflexivity|].
  destruct (upload_area_validation (λ n, pretty n +:+ " B") 10 big_png
              alice_req "alice" 1000 1001 w_ready [])
    as (_ & _ & H).
  destruct H as [_ H].
  - vm_compute; reflexivity.
  - exact I.
  - simpl. tauto.
  - unfold calm. simpl. constructor.
  - reflexivity.
  - apply H. unfold acceptedTypes. simpl.
    apply elem_of_cons. right. apply elem_of_cons. by left.
Defined.


Lemma voice_with_voice config u v s :
  voice (with_voice config u s) v = if decide (v = u) then s else voice config v.
Proof. by destruct u, v. Qed.

Lemma handleToggleSolo_solo config u v :
  solo (voice (handleToggleSolo u config) v)
  = if solo (voice config u)
    then (if decide (v = u) then false else solo (voice config v))
    else bool_decide (v = u).
Proof.
  unfold handleToggleSolo. destruct (solo (voice config u)) eqn:E.
  - rewrite voice_with_voice. by case_decide.
  - destruct u, v; reflexivity.
Qed.

Lemma handleToggleSolo_others config u v :
  enabled (voice (handleToggleSolo u config) v) = enabled (voice config v)
  ∧ volume (voice (handleToggleSolo u config) v) = volume (voice config v).
Proof.
  unfold handleToggleSolo. destruct (solo (voice config u)).
  - rewrite voice_with_voice. case_decide; by subst.
  - destruct u, v; split; reflexivity.
Qed.

Lemma handleToggleEnabled_solo config u v :
  solo (voice (handleToggleEnabled u config) v) = solo (voice config v).
Proof. by destruct u, v. Qed.

Lemma handleVolumeChange_solo config u vol v :
  solo (voice (handleVolumeChange u vol config) v) = solo (voice config v).
Proof. by destruct u, v. Qed.

(** X18. In the SATB selector, soloing is exclusive.  Toggling the solo
    of a voice that is not solo makes it the one solo voice; toggling it
    on a solo voice clears that flag only; the mute state and the volume
    of every voice stay as they are.  So, from the initial configuration
    or after a reset, no sequence of the selector's four actions ever
    makes two voices solo. *)
Theorem satb_solo_is_exclusive
    (config : Voices) (u : VoiceId) (actions : list satb_action) :
  (solo (voice config u) = false →
   ∀ v, solo (voice (handleToggleSolo u config) v) = bool_decide (v = u))
  ∧ (solo (voice config u) = true →
     ∀ v, solo (voice (handleToggleSolo u config) v)
          = if decide (v = u) then false else solo (voice config v))
  ∧ (∀ v, enabled (voice (handleToggleSolo u config) v)
          = enabled (voice config v)
          ∧ volume (voice (handleToggleSolo u config) v)
            = volume (voice config v))
  ∧ (one_solo_at_most config →
     one_solo_at_most (foldl satb_step config actions))
  ∧ one_solo_at_most (foldl satb_step handleResetAll actions).
Proof.
  assert (Step : ∀ c a, one_solo_at_most c → one_solo_at_most (satb_step c a)).
  { intros c [x|x|x vol|] Hc; simpl.
    - intros a b. rewrite !handleToggleEnabled_solo. apply Hc.
    - intros a b. rewrite !handleToggleSolo_solo.
      destruct (solo (voice c x)).
      + repeat case_decide; try done. apply Hc.
      + intros ?%bool_decide_eq_true ?%bool_decide_eq_true. congruence.
    - intros a b. rewrite !handleVolumeChange_solo. apply Hc.
    - intros a b. by destruct a. }
  assert (Run : ∀ l c, one_solo_at_most c →
                one_solo_at_most (foldl satb_step c l)).
  { induction l as [|a l IH]; intros c Hc; [done|].
    simpl. by apply IH, Step. }
  split_and!.
  - intros E v. by rewrite handleToggleSolo_solo, E.
  - intros E v. by rewrite handleToggleSolo_solo, E.
  - apply handleToggleSolo_others.
  - apply Run.
  - apply Run. intros a b. by destruct a.
Qed.

Lemma satb_solo_is_exclusive_witness :
  solo (voice (handleToggleSolo tenor
                 (handleToggleSolo alto handleResetAll)) alto)
  = bool_decide (alto = tenor).
Proof.
  destruct (satb_solo_is_exclusive (handleToggleSolo alto handleResetAll)
              tenor []) as [H _].
  apply H. reflexivity.
Defined.

(** X19. Which voices the selector shows as active.  With no voice solo,
    the active voices are the enabled ones.  Right after a voice that was
    not solo is soloed, it is the only voice that can be active, and it is
    active only if it is enabled: soloing a muted voice leaves no voice
    active. *)
Theorem satb_active_voices (config : Voices) (u : VoiceId) :
  (anySolo config = false → ∀ v, isActive config v = enabled (voice config v))
  ∧ (solo (voice config u) = false →
     ∀ v, isActive (handleToggleSolo u config) v
          = enabled (voice config v) && bool_decide (v = u)).
Proof.
  split.
  - intros E v. unfold isActive. rewrite E. simpl. by rewrite andb_true_r.
  - intros E v. unfold isActive.
    assert (A : anySolo (handleToggleSolo u config) = true).
    { unfold anySolo. apply existsb_exists. exists u. split.
      - destruct u; simpl; tauto.
      - rewrite handleToggleSolo_solo, E. by apply bool_decide_eq_true. }
    rewrite A, handleToggleSolo_solo, E. simpl.
    by destruct (handleToggleSolo_others config u v) as [-> _].
Qed.

Lemma satb_active_voices_witness :
  isActive (handleToggleSolo bass
              (handleToggleEnabled bass handleResetAll)) bass
  = enabled (voice (handleToggleEnabled bass handleResetAll) bass)
    && bool_decide (bass = bass).
Proof.
  destruct (satb_active_voices (handleToggleEnabled bass handleResetAll) bass)
    as [_ H].
  apply H. reflexivity.
Defined.


(** * The selectors and the pages *)

Lemma filter_others (id : string) (l : list string) :
  id ∉ l → filter (λ x, x ≠ id) l = l.
Proof.
  induction l as [|y l IH]; [done|].
  intros [Hy Hl]%not_elem_of_cons.
  rewrite filter_cons_True by done. f_equal. by apply IH.
Qed.

Lemma handleInstrumentToggle_NoDup mode maxSelections l id :
  NoDup l → NoDup (handleInstrumentToggle mode maxSelections l id).
Proof.
  intros Hl. unfold handleInstrumentToggle, includes.
  case_bool_decide as Hin.
  - by apply NoDup_filter.
  - destruct mode; [apply NoDup_singleton|].
    destruct (under_limit _ _); [|done].
    apply NoDup_app. split_and!; [done| |apply NoDup_singleton].
    intros x Hx ->%list_elem_of_singleton. done.
Qed.

Lemma handleInstrumentToggle_length mode m l id :
  0 < m → Z.of_nat (List.length l) ≤ m →
  Z.of_nat (List.length (handleInstrumentToggle mode (Some m) l id)) ≤ m.
Proof.
  intros Hm Hl. unfold handleInstrumentToggle, includes.
  case_bool_decide as Hin.
  - pose proof (length_filter (λ x, x ≠ id) l). lia.
  - destruct mode; simpl; [lia|].
    destruct (m =? 0) eqn:E0; [lia|]. simpl.
    destruct (Z.of_nat (List.length l) <? m) eqn:E; [|done].
    rewrite length_app. simpl. lia.
Qed.

(** X20. The instrument selector keeps a selection without duplicates,
    within the limit.  A click on a selected instrument removes it and
    nothing else; a click on an unselected one appends it in ensemble mode
    when the selection is under the limit (a limit of 0 counts as no
    limit) and a second click then restores the selection; in solo mode
    it replaces the whole selection.  From the empty selection, no
    sequence of clicks produces a duplicate, and with a positive limit
    the selection never grows beyond it. *)
Theorem instrument_toggle_keeps_selection_sound
    (mode : SelectorMode) (maxSelections : option Z)
    (selected : list string) (instrumentId : string)
    (clicks : list selector_action) :
  let toggled :=
    handleInstrumentToggle mode maxSelections selected instrumentId in
  (instrumentId ∈ selected →
   (instrumentId ∉ toggled)
   ∧ ∀ x, x ≠ instrumentId → (x ∈ toggled ↔ x ∈ selected))
  ∧ (instrumentId ∉ selected → mode = ensemble_mode →
     maxSelections = None ∨ maxSelections = Some 0
     ∨ (∃ m, maxSelections = Some m
             ∧ Z.of_nat (List.length selected) < m) →
     toggled = (selected ++ [instrumentId])%list
     ∧ handleInstrumentToggle mode maxSelections toggled instrumentId
       = selected)
  ∧ (instrumentId ∉ selected → mode = solo_mode → toggled = [instrumentId])
  ∧ NoDup (foldl (selector_step mode maxSelections) [] clicks)
  ∧ (∀ m, maxSelections = Some m → 0 < m →
     Z.of_nat (List.length
                 (foldl (selector_step mode maxSelections) [] clicks)) ≤ m).
Proof.
  intros toggled. subst toggled. split_and!.
  - intros Hin. unfold handleInstrumentToggle, includes.
    rewrite bool_decide_eq_true_2 by done. split.
    + rewrite list_elem_of_filter. tauto.
    + intros x Hx. rewrite list_elem_of_filter. tauto.
  - intros Hin -> Hlim.
    assert (U : under_limit maxSelections selected = true).
    { destruct Hlim as [->| [->| (m & -> & Hm)]]; simpl; [done..|].
      apply orb_true_iff. right. by apply Z.ltb_lt. }
    assert (E : handleInstrumentToggle ensemble_mode maxSelections selected
                  instrumentId = (selected ++ [instrumentId])%list).
    { unfold handleInstrumentToggle, includes.
      by rewrite bool_decide_eq_false_2, U by done. }
    split; [done|]. rewrite E.
    unfold handleInstrumentToggle, includes.
    rewrite bool_decide_eq_true_2 by (apply elem_of_app; right; by left).
    rewrite filter_app, filter_cons_False, filter_nil, app_nil_r by tauto.
    by apply filter_others.
  - intros Hin ->. unfold handleInstrumentToggle, includes.
    by rewrite bool_decide_eq_false_2 by done.
  - assert (G : ∀ l, NoDup l →
              NoDup (foldl (selector_step mode maxSelections) l clicks)).
    { induction clicks as [|a clicks IH]; intros l Hl; [done|].
      simpl. apply IH. destruct a; simpl.
      - by apply handleInstrumentToggle_NoDup.
      - apply NoDup_nil_2. }
    apply G, NoDup_nil_2.
  - intros m -> Hm.
    assert (G : ∀ l, Z.of_nat (List.length l) ≤ m →
              Z.of_nat (List.length
                (foldl (selector_step mode (Some m)) l clicks)) ≤ m).
    { induction clicks as [|a clicks IH]; intros l Hl; [done|].
      simpl. apply IH. destruct a; simpl.
      - by apply handleInstrumentToggle_length.
      - lia. }
    apply G. simpl. lia.
Qed.

Lemma instrument_toggle_keeps_selection_sound_witness :
  handleInstrumentToggle ensemble_mode (Some 2) ["violin"] "cello"
  = ["violin"; "cello"]
  ∧ handleInstrumentToggle ensemble_mode (Some 2)
      (handleInstrumentToggle ensemble_mode (Some 2) ["violin"] "cello")
      "cello"
    = ["violin"].
Proof.
  destruct (instrument_toggle_keeps_selection_sound ensemble_mode (Some 2)
              ["violin"] "cello" []) as (_ & H & _).
  apply H.
  - apply not_elem_of_cons. split; [done|apply not_elem_of_nil].
  - reflexivity.
  - right. right. exists 2. split; [reflexivity|]. simpl. lia.
Defined.


(** X21. What a conversion started from the upload page stores.  The
    page sends nothing without a score, or in instruments mode with an
    empty selection.  Otherwise, for a score the caller owns (caller
    authenticated, store answering), the stored conversion is in state
    processing for that score, with the page's tempo, or 120 when the
    tempo is 0 or not a number; in instruments mode it holds the selected
    instruments and the empty SATB configuration, in SATB mode no
    instrument and the selector's configuration. *)
Theorem handleConvert_stores_the_selection
    (scoreId : option string) (mode : ConversionMode)
    (selectedInstruments : list string) (satbConfig : Voices)
    (tempo : option Z)
    (req : request) (uid : string) (doc : value) (ts now : N) (w : world) :
  let attempt :=
    handleConvert scoreId mode selectedInstruments satbConfig tempo in
  ((∃ message, attempt = Toast message)
   ↔ truthy scoreId = false
     ∨ (mode = instruments_mode ∧ selectedInstruments = []))
  ∧ ∀ id body,
      attempt = Post id body →
      (verifyAuth req w).1 = Some (inl uid) →
      kv w !! id = Some doc →
      userId_of doc = Some uid →
      calm 2 w →
      scoreId = Some id
      ∧ ∃ c,
          kv (convert req id (Some body) ts now w).2
            !! conversionId_at uid ts = Some (VConversion c)
          ∧ c_scoreId c = id ∧ c_userId c = uid
          ∧ c_status c = processing
          ∧ c_tempo c = match tempo with
                        | Some t => if t =? 0 then 120 else t
                        | None => 120
                        end
          ∧ match mode with
            | instruments_mode =>
              c_instruments c = selectedInstruments
              ∧ selectedInstruments ≠ []
              ∧ c_satbConfig c = SatbEmpty
            | satb_mode =>
              c_instruments c = []
              ∧ c_satbConfig c = to_satbConfig satbConfig
            end.
Proof.
  intros attempt. subst attempt. unfold handleConvert. split.
  - destruct scoreId as [[|ch sid]|]; simpl.
    all: destruct mode, selectedInstruments; simpl.
    all: split;
      [ intros [? H]; try discriminate H; by auto
      | intros [H|[H1 H2]]; try discriminate; by eauto ].
  - intros id body Hpost Hauth Hdoc Hown Hcalm.
    destruct scoreId as [[|ch sid]|]; try done. simpl in Hpost.
    destruct (convert_run req uid id doc body ts now w Hauth Hdoc Hown Hcalm)
      as (_ & Hkv & _).
    assert (Hid : id = String ch sid).
    { destruct mode, selectedInstruments; simpl in Hpost;
        try discriminate Hpost; by injection Hpost as <- _. }
    split; [by rewrite Hid|].
    eexists. split; [rewrite Hkv; exact (lookup_insert_eq _ _ _)|].
    destruct mode, selectedInstruments; simpl in Hpost;
      try discriminate Hpost.
    all: by injection Hpost as _ <-.
Qed.

Lemma handleConvert_stores_the_selection_witness :
  ∃ c,
    kv (convert alice_req "score_alice_1000"
          (Some {| b_instruments := Some []%list;
                   b_satbConfig := Some (to_satbConfig handleResetAll);
                   b_tempo := Some 0 |})
          2000 2001 w_score).2
      !! conversionId_at "alice" 2000 = Some (VConversion c)
    ∧ c_tempo c = 120
    ∧ c_instruments c = []
    ∧ c_satbConfig c = to_satbConfig handleResetAll.
Proof.
  destruct (handleConvert_stores_the_selection (Some "score_alice_1000")
              satb_mode ["violin"] handleResetAll (Some 0)
              alice_req "alice"
              (VScore (new_score "score_alice_1000" "alice" png
                         "alice/1000.png" 1001
                         (Some "https://signed/alice/1000.png")))
              2000 2001 w_score) as [_ H].
  destruct (H "score_alice_1000" _ eq_refl) as (_ & c & Hc & _ & _ & _ & Ht & Hi & Hs).
  - reflexivity.
  - vm_compute. reflexivity.
  - reflexivity.
  - unfold calm. vm_compute. constructor.
  - exists c. by split_and!.
Defined.




(** After two completed conversions of one score, the library page opens
    the older one. *)
Example handleScoreSelect_two_conversions :
  (λ r, match r with
        | RLibrary L => handleScoreSelect <$> L
        | _ => []
        end) (library alice_req w_two_conversions).1
  = ["/playback/conversion_alice_2000"].
Proof. vm_compute; reflexivity. Qed.


(** ** Delete, then reload *)

Lemma library_only_read req w : only_read w (library req w).2.
Proof.
  apply (preserves_try_catch only_read).
  apply preserves_bind;
    [apply only_read_trans|apply preserves_verifyAuth, only_read_refl|].
  intros [uid|err]; [|apply preserves_ret, only_read_refl].
  repeat (apply preserves_bind;
    [apply only_read_trans
    |first [apply only_read_get_index | by apply only_read_kv_call]
    |intros ?]).
  apply preserves_ret, only_read_refl.
Qed.

Lemma fetched_cons (m : gmap string value) k ids :
  fetched m (k :: ids)
  = match m !! k with
    | Some y => y :: fetched m ids
    | None => fetched m ids
    end.
Proof. reflexivity. Qed.

Lemma elem_of_fetched (m : gmap string value) ids v :
  v ∈ fetched m ids ↔ ∃ k, k ∈ ids ∧ m !! k = Some v.
Proof. unfold fetched. by rewrite list_elem_of_omap. Qed.

Section Cascade.
Variables (m : gmap string value) (uid scoreId : string).
Variables (scoreIds conversionIds : list string).
Hypothesis Hscores : as_index (m !! userScoresKey uid) = Some scoreIds.
Hypothesis Hconvs :
  as_index (m !! userConversionsKey uid) = Some conversionIds.
Hypothesis Iscores : scores_indexed m scoreIds.
Hypothesis Iconvs : conversions_indexed m conversionIds.
Hypothesis Hlisted : scoreId ∈ scoreIds.

Abbreviation deleted :=
  (c_id <$> scoreConversions_of scoreId (fetched m conversionIds)).

Abbreviation m2 :=
  (<[userScoresKey uid := VIndex (filter (λ id, id ≠ scoreId) scoreIds)]>
     (after_cascade m uid scoreId conversionIds)).

Lemma deleted_key k :
  k ∈ deleted →
  ∃ c, m !! k = Some (VConversion c) ∧ c_id c = k ∧ c_scoreId c = scoreId.
Proof.
  unfold scoreConversions_of.
  intros (c & -> & Hc)%list_elem_of_fmap.
  apply list_elem_of_omap in Hc as (v & Hv & Hvc).
  destruct v as [|c'|]; simplify_eq/=.
  apply list_elem_of_filter in Hv as [Hs Hv]. simpl in Hs.
  apply elem_of_fetched in Hv as (k & Hk & Hmk).
  destruct (Iconvs k Hk) as (c' & Hc' & Hid).
  rewrite Hmk in Hc'. injection Hc' as <-. subst k.
  exists c. split_and!; [done..|congruence].
Qed.

Lemma key_deleted k c :
  k ∈ conversionIds → m !! k = Some (VConversion c) → c_id c = k →
  c_scoreId c = scoreId → k ∈ deleted.
Proof.
  intros Hk Hmk Hid Hs. unfold scoreConversions_of.
  apply list_elem_of_fmap. exists c. split; [done|].
  apply list_elem_of_omap. exists (VConversion c). split; [|done].
  apply list_elem_of_filter. split; [simpl; congruence|].
  apply elem_of_fetched. by exists k.
Qed.

Lemma scoreId_is_score : ∃ s, m !! scoreId = Some (VScore s).
Proof. destruct (Iscores _ Hlisted) as (s & Hs & _). by exists s. Qed.

Lemma record_not_index_key k v :
  m !! k = Some v → (∀ ids, v ≠ VIndex ids) →
  k ≠ userScoresKey uid ∧ k ≠ userConversionsKey uid.
Proof.
  intros Hk Hv. split; intros ->.
  - rewrite Hk in Hscores. destruct v; [done..|]. by eapply Hv.
  - rewrite Hk in Hconvs. destruct v; [done..|]. by eapply Hv.
Qed.

Lemma cascade_keeps k v :
  m !! k = Some v → (∀ ids, v ≠ VIndex ids) → k ≠ scoreId → k ∉ deleted →
  m2 !! k = Some v.
Proof.
  intros Hk Hv Hne Hnd.
  destruct (record_not_index_key k v Hk Hv) as [H1 H2].
  unfold after_cascade.
  rewrite lookup_insert_ne, lookup_delete_ne, lookup_insert_ne by done.
  rewrite without_conversions_lookup.
  by rewrite decide_False.
Qed.

Lemma cascade_scores_index :
  after_cascade m uid scoreId conversionIds !! userScoresKey uid
  = m !! userScoresKey uid.
Proof.
  destruct scoreId_is_score as [s Hs].
  destruct (record_not_index_key scoreId (VScore s) Hs) as [H1 H2]; [done|].
  unfold after_cascade.
  rewrite lookup_delete_ne, lookup_insert_ne by done.
  rewrite without_conversions_lookup. rewrite decide_False; [done|].
  intros (c & Hc & _)%deleted_key.
  rewrite Hc in Hscores. done.
Qed.

Lemma cascade_conversions_index :
  m2 !! userConversionsKey uid
  = Some (VIndex (filter (λ id, id ∉ deleted) conversionIds)).
Proof.
  destruct scoreId_is_score as [s Hs].
  destruct (record_not_index_key scoreId (VScore s) Hs) as [H1 H2]; [done|].
  unfold after_cascade.
  rewrite lookup_insert_ne by (apply not_eq_sym, index_keys_differ).
  rewrite lookup_delete_ne by done.
  exact (lookup_insert_eq _ _ _).
Qed.

Lemma cascade_fetched_scores l :
  l ⊆ scoreIds →
  fetched m2 (filter (λ id, id ≠ scoreId) l)
  = filter (λ v, prop_key (id_of v) ≠ scoreId) (fetched m l).
Proof.
  induction l as [|k l IH]; intros Hl; [done|].
  destruct (Iscores k) as (s & Hk & Hid); [apply Hl; by left|].
  rewrite fetched_cons, Hk.
  assert (Hl' : l ⊆ scoreIds) by (intros x Hx; apply Hl; by right).
  destruct (decide (k = scoreId)) as [->|Hne].
  - rewrite filter_cons_False by (intros H; by apply H).
    rewrite filter_cons_False by (simpl; rewrite Hid; intros H; by apply H).
    by apply IH.
  - rewrite filter_cons_True by done.
    rewrite filter_cons_True by (simpl; by rewrite Hid).
    rewrite fetched_cons, (cascade_keeps k (VScore s)); try done.
    + f_equal. by apply IH.
    + intros (c & Hc & _)%deleted_key. by rewrite Hk in Hc.
Qed.

Lemma cascade_fetched_conversions l :
  l ⊆ conversionIds →
  fetched m2 (filter (λ id, id ∉ deleted) l)
  = filter (λ v, scoreId_of v ≠ Some scoreId) (fetched m l).
Proof.
  induction l as [|k l IH]; intros Hl; [done|].
  assert (Hkin : k ∈ conversionIds) by (apply Hl; by left).
  destruct (Iconvs k Hkin) as (c & Hk & Hid).
  rewrite fetched_cons, Hk.
  assert (Hl' : l ⊆ conversionIds) by (intros x Hx; apply Hl; by right).
  destruct (decide (k ∈ deleted)) as [Hd|Hd].
  - rewrite filter_cons_False by (intros H; by apply H).
    apply deleted_key in Hd as (c' & Hc' & _ & Hs).
    rewrite Hk in Hc'. injection Hc' as <-.
    rewrite filter_cons_False
      by (simpl; rewrite Hs; intros H; by apply H).
    by apply IH.
  - rewrite filter_cons_True by done.
    assert (Hs : c_scoreId c ≠ scoreId).
    { intros Hs. apply Hd. by eapply key_deleted. }
    rewrite filter_cons_True by (simpl; congruence).
    rewrite fetched_cons, (cascade_keeps k (VConversion c)); try done.
    + f_equal. by apply IH.
    + intros ->. destruct scoreId_is_score as [s Hsc]. by rewrite Hk in Hsc.
Qed.

End Cascade.

(** Filtering commutes with the sort of dated entries. *)
Lemma sort_insert_front (x : LibraryEntry) l :
  Forall (not_older x) l → sort_insert newest_first x l = x :: l.
Proof.
  destruct l as [|y l]; [done|]. intros [H _]%Forall_cons. simpl.
  unfold not_older in H. by rewrite (proj2 (Z.leb_le _ _) H).
Qed.

Lemma not_older_newer_or_same x y z :
  not_older x y → newer_or_same y z → not_older x z.
Proof.
  unfold not_older, newest_first.
  intros Hxy (ty & tz & Hy & Hz & Hle). rewrite Hy in Hxy. rewrite Hz.
  destruct (getTime x); lia.
Qed.

Lemma sort_insert_filter (P : LibraryEntry → Prop)
    `{!∀ e, Decision (P e)} x l :
  StronglySorted newer_or_same l →
  filter P (sort_insert newest_first x l)
  = if decide (P x) then sort_insert newest_first x (filter P l)
    else filter P l.
Proof.
  induction 1 as [|y l Hl IH Hy]; simpl.
  - rewrite filter_cons, filter_nil. by case_decide.
  - destruct (newest_first x y <=? 0) eqn:E.
    + rewrite filter_cons. case_decide; [|done].
      rewrite sort_insert_front; [done|].
      apply Z.leb_le in E. apply Forall_forall.
      intros z [_ Hz]%list_elem_of_filter.
      apply elem_of_cons in Hz as [->|Hz]; [done|].
      eapply not_older_newer_or_same; [exact E|].
      by eapply Forall_forall in Hy.
    + rewrite !(filter_cons _ y), IH.
      destruct (decide (P y)); [|done].
      destruct (decide (P x)); [|done]. simpl. by rewrite E.
Qed.

Lemma js_sort_filter (P : LibraryEntry → Prop) `{!∀ e, Decision (P e)} l :
  Forall dated l →
  filter P (js_sort newest_first l) = js_sort newest_first (filter P l).
Proof.
  induction 1 as [|x l Hx Hl IH]; [done|].
  change (js_sort newest_first (x :: l))
    with (sort_insert newest_first x (js_sort newest_first l)).
  rewrite sort_insert_filter by by apply js_sort_strongly_sorted.
  rewrite IH, filter_cons. by case_decide.
Qed.

Lemma attach_filtered (scoreId : string) (cs : list value) s :
  prop_key (id_of s) ≠ scoreId →
  attach (filter (λ v, scoreId_of v ≠ Some scoreId) cs) s = attach cs s.
Proof.
  intros Hs. unfold attach. f_equal.
  induction cs as [|c cs IH]; [done|].
  rewrite (filter_cons _ c). case_decide as Hc.
  - rewrite !(filter_cons _ c). case_decide; by rewrite IH.
  - rewrite (filter_cons _ c), decide_False; [done|].
    intros Hk. rewrite Hc in Hk. simpl in Hk. by apply Hs.
Qed.

Lemma attach_fmap_filter (scoreId : string) cs (S : list value) :
  attach (filter (λ v, scoreId_of v ≠ Some scoreId) cs)
    <$> filter (λ v, prop_key (id_of v) ≠ scoreId) S
  = filter (λ e, prop_key (id_of (e_score e)) ≠ scoreId) (attach cs <$> S).
Proof.
  induction S as [|s S IH]; [done|].
  rewrite fmap_cons, (filter_cons _ s), (filter_cons _ (attach cs s)).
  simpl. case_decide as Hs; [|done].
  by rewrite fmap_cons, IH, attach_filtered.
Qed.

(** X23. Deleting a score from the library page leaves the page with the
    list a reload returns.  When every id of the caller's two indexes is
    the key of a record of its kind with that id, and the page deletes a
    listed score and Delete Score confirms, the page's list with the
    score filtered out is, entry for entry and in the same order, the
    answer of Library Listing after the delete (store answering). *)
Theorem delete_then_reload_agrees_with_page
    (req : request) (uid scoreId : string) (w : world)
    (scoreIds conversionIds : list string) (msg : string) :
  let w1 := (library req w).2 in
  let r := (deleteScore req scoreId w1).1 in
  let w2 := (deleteScore req scoreId w1).2 in
  (verifyAuth req w).1 = Some (inl uid) →
  calm 4 w →
  as_index (kv w !! userScoresKey uid) = Some scoreIds →
  as_index (kv w !! userConversionsKey uid) = Some conversionIds →
  scores_indexed (kv w) scoreIds →
  conversions_indexed (kv w) conversionIds →
  scoreId ∈ scoreIds →
  r = RMessage msg →
  calm 4 w2 →
  ∃ scores,
    (library req w).1 = RLibrary scores
    ∧ (library req w2).1 = RLibrary (handleScoreDelete scores scoreId r).
Proof.
  intros w1 r w2 Hauth Hcalm Hs Hc Is Ic Hin Hr Hcalm2.
  destruct (library_run req uid w scoreIds conversionIds Hauth Hcalm Hs Hc)
    as [Hlib Hkv1].
  destruct (library_only_read req w) as (_ & Hsess1 & _).
  fold w1 in Hkv1, Hsess1.
  destruct (deleteScore_success_inv req scoreId w1 msg Hr)
    as (uid' & cids & sids & Hauth1 & _ & Hc1 & Hs1 & Hkv2 & Hsess2).
  fold w2 in Hkv2, Hsess2.
  rewrite (verifyAuth_sessions req w w1) in Hauth1 by done.
  rewrite Hauth in Hauth1. injection Hauth1 as <-.
  rewrite Hkv1 in Hc1, Hs1, Hkv2.
  rewrite Hc in Hc1. injection Hc1 as <-.
  rewrite (cascade_scores_index (kv w) uid scoreId scoreIds conversionIds)
    in Hs1 by done.
  rewrite Hs in Hs1. injection Hs1 as <-.
  assert (Hauth2 : (verifyAuth req w2).1 = Some (inl uid)).
  { rewrite (verifyAuth_sessions req w w2); [done|]. congruence. }
  destruct (library_run req uid w2
              (filter (λ id, id ≠ scoreId) scoreIds)
              (filter (λ id, id ∉ c_id <$> scoreConversions_of scoreId
                                   (fetched (kv w) conversionIds))
                      conversionIds)
              Hauth2 Hcalm2) as [Hlib2 _].
  { rewrite Hkv2. by rewrite (lookup_insert_eq _ _ _). }
  { rewrite Hkv2.
    by rewrite (cascade_conversions_index (kv w) uid scoreId scoreIds
                  conversionIds). }
  eexists. split; [exact Hlib|].
  rewrite Hlib2, Hr. unfold handleScoreDelete. simpl. f_equal.
  rewrite Hkv2.
  rewrite (cascade_fetched_scores (kv w) uid scoreId scoreIds conversionIds)
    by done.
  rewrite (cascade_fetched_conversions (kv w) uid scoreId scoreIds
             conversionIds) by done.
  rewrite attach_fmap_filter.
  symmetry. apply js_sort_filter.
  apply Forall_fmap, Forall_forall. intros v Hv.
  apply elem_of_fetched in Hv as (k & Hk & Hmk).
  destruct (Is k Hk) as (s & Hsk & _). rewrite Hmk in Hsk.
  injection Hsk as ->. by eexists.
Qed.

Lemma delete_then_reload_agrees_with_page_witness :
  ∃ scores,
    (library alice_req w_two_scores).1 = RLibrary scores
    ∧ (library alice_req
         (deleteScore alice_req "score_alice_1000"
            (library alice_req w_two_scores).2).2).1
      = RLibrary
          (handleScoreDelete scores "score_alice_1000"
             (deleteScore alice_req "score_alice_1000"
                (library alice_req w_two_scores).2).1).
Proof.
  apply (delete_then_reload_agrees_with_page alice_req "alice"
           "score_alice_1000" w_two_scores
           ["score_alice_1000"; "score_alice_5000"]
           ["conversion_alice_2000"]
           "Score and all conversions deleted successfully").
  - vm_compute; reflexivity.
  - unfold calm. vm_compute. constructor.
  - vm_compute; reflexivity.
  - vm_compute; reflexivity.
  - intros k Hk.
    apply elem_of_cons in Hk as [->|Hk];
      [|apply list_elem_of_singleton in Hk as ->].
    all: eexists; split; vm_compute; reflexivity.
  - intros k ->%list_elem_of_singleton.
    eexists; split; vm_compute; reflexivity.
  - by left.
  - vm_compute; reflexivity.
  - unfold calm. vm_compute. constructor.
Defined.

(** Alice deletes her first score: the reloaded library lists the second
    one only. *)
Example delete_then_reload_example :
  (λ r, match r with
        | RLibrary L => (λ e, prop_key (id_of (e_score e))) <$> L
        | _ => []
        end)
    (library alice_req
       (deleteScore alice_req "score_alice_1000" w_two_scores).2).1
  = ["score_alice_5000"].
Proof. vm_compute; reflexivity. Qed.
